(** * Context-pack assembly of the second-brain vault (scripts/pack_context.py)

    A shallow embedding of the pure core of [pack_context.py]: relevance
    scoring, link expansion, the recency filter, the keyword top-k selection
    and the token-budgeted rendering loop, followed by the properties the
    specification states about them.

    Modelling conventions.
    - A Python [str] is modelled by the [string] of the bytes of its UTF-8
      encoding.  Concatenation, equality, [in], [startswith] and the count of
      a non-empty substring are the same on the bytes as on the characters;
      [len] counts the bytes that start a character ([PyStr.len]).
    - The tables of the Python library that depend on Unicode are not part of
      the repository: the case mapping of [str.lower], the white space of
      [\\s] and [str.strip], the decimal digits [strptime] reads.  The
      definitions [PyStr.lower], [Render.is_space] and [PyDate.strptime] are
      these operations on ASCII text, where they are exact; a statement that
      has to hold of every text either takes the library operation as a
      parameter ([score_note_with], [get_recent_notes_with], the [extract]
      argument of the rendering) or says that the text is ASCII
      ([ascii_text]).
    - The score is a Python float that only ever receives the increments 3.0,
      2.0 and an integer count, so it is an integer-valued float; it is
      modelled by the integer it denotes, in [Z].
    - A Python [set] of ids is a [gset string]; the result of every function
      modelled here is independent of the iteration order of the set.
    - [datetime.now()] is an input ([now]); a naive [datetime] is the number
      of microseconds since 0001-01-01T00:00:00. *)

From Stdlib Require Import ZArith Ascii String List Sorted Lia.
From stdpp Require Import base gmap strings list sets fin_sets.

Local Open Scope string_scope.
Local Open Scope Z_scope.

(** ** Python string operations *)

Module PyStr.

(** [c.lower()] on one ASCII character. *)
Definition lower_ascii (c : ascii) : ascii :=
  let n := nat_of_ascii c in
  if ((65 <=? n)%nat && (n <=? 90)%nat)%bool then ascii_of_nat (n + 32) else c.

(** [s.lower()] on ASCII text: the letters A to Z are replaced, every other
    byte is kept.  The case table the library has above 127 is not modelled;
    the statements that are to hold for other text take [str.lower] as a
    parameter, or are for ASCII text. *)
Fixpoint lower (s : string) : string :=
  match s with
  | EmptyString => EmptyString
  | String c s' => String (lower_ascii c) (lower s')
  end.

(** [s.startswith(p)] *)
Fixpoint startswith (p s : string) : bool :=
  match p, s with
  | EmptyString, _ => true
  | String _ _, EmptyString => false
  | String a p', String b s' => if Ascii.eqb a b then startswith p' s' else false
  end.

(** [sub in s]: some suffix of [s] starts with [sub]. *)
Fixpoint contains (sub s : string) : bool :=
  if startswith sub s then true
  else match s with
       | EmptyString => false
       | String _ s' => contains sub s'
       end.

(** A byte [10xxxxxx], which continues a character begun earlier. *)
Definition is_continuation (c : ascii) : bool :=
  match c with
  | Ascii _ _ _ _ _ _ false true => true
  | _ => false
  end.

(** [len(s)]: the number of characters, one for each byte that starts one. *)
Fixpoint len (s : string) : nat :=
  match s with
  | EmptyString => O
  | String c s' => if is_continuation c then len s' else S (len s')
  end.

(** The scan of [s.count(sub)] for a non-empty [sub]: occurrences are counted
    from left to right and, once one is found, the scan resumes after its
    last byte ([skip] bytes are still covered by the previous occurrence). *)
Fixpoint count_from (sub s : string) (skip : nat) : Z :=
  match s with
  | EmptyString =>
      match skip with
      | O => if startswith sub EmptyString then 1 else 0
      | S _ => 0
      end
  | String _ s' =>
      match skip with
      | S k => count_from sub s' k
      | O => if startswith sub s
             then 1 + count_from sub s' (String.length sub - 1)
             else count_from sub s' 0
      end
  end.

(** [s.count(sub)]; the empty [sub] is found before every character and at
    the end, [len(s) + 1] times. *)
Definition count (s sub : string) : Z :=
  match sub with
  | EmptyString => Z.of_nat (len s) + 1
  | String _ _ => count_from sub s 0
  end.

(** The number of positions of [s] at which [sub] starts, overlapping ones
    included: the reading of "per occurrence as a substring" position by
    position. *)
Fixpoint occurrences (sub s : string) : Z :=
  (if startswith sub s then 1 else 0)
  + match s with
    | EmptyString => 0
    | String _ s' => occurrences sub s'
    end.

(** [sep.join(l)] *)
Fixpoint join (sep : string) (l : list string) : string :=
  match l with
  | [] => EmptyString
  | [x] => x
  | x :: l' => x ++ sep ++ join sep l'
  end.

(** The position-wise reading of "occurs as a substring". *)
Definition occurs (sub s : string) : Prop :=
  ∃ pre post : string, s = pre ++ sub ++ post.

(** What a scan from left to right counts: nothing when [sub] does not
    occur; otherwise one for the leftmost occurrence, plus what the scan
    counts in the text after that occurrence. *)
Inductive scan (sub : string) : string → Z → Prop :=
  | scan_stop (s : string) :
      ¬ occurs sub s → scan sub s 0
  | scan_step (pre rest : string) (k : Z) :
      (∀ pre' post', pre ++ sub ++ rest = pre' ++ sub ++ post' →
                     (String.length pre ≤ String.length pre')%nat) →
      scan sub rest k →
      scan sub (pre ++ sub ++ rest) (1 + k).

End PyStr.

(** ** Notes *)

(** The value found under the [updated] key of the front matter.  YAML yields
    a [datetime.date] for an unquoted [YYYY-MM-DD], a [datetime.datetime] for
    a full timestamp (offset-aware when it carries a zone), a [str] for a
    quoted scalar, and other scalars or collections otherwise. *)
Inductive pyval : Type :=
  | VNone                                  (* key absent, or null *)
  | VStr (s : string)
  | VDate (year month day : Z)             (* datetime.date *)
  | VDateTime (us : Z)                     (* naive datetime.datetime *)
  | VAwareDateTime (us : Z)                (* offset-aware datetime.datetime *)
  | VOther (truthy : bool).                (* int, float, bool, list, dict *)

(** One entry of [links]; [link_to] is [link.get("to")]. *)
Record link : Type := Link { link_to : option string }.

(** The dict built by [load_notes] for one file. *)
Record note : Type := Note {
  note_id : option string;
  note_type : option string;
  note_title : string;
  note_tags : list string;
  note_links : list link;
  note_updated : pyval;
  note_confidence : string;
  note_rel_path : string;
  note_text : string
}.

(** Truthiness of an optional string: [None] and [""] are falsy. *)
Definition truthy (o : option string) : bool :=
  match o with
  | Some s => negb (String.eqb s EmptyString)
  | None => false
  end.

(** ** Relevance scoring *)

Definition NL : string := String (ascii_of_nat 10) EmptyString.

(** The three loops of [score_note], each adding to the running score. *)
Definition title_loop (title_lower : string) (query_terms : list string) (score : Z) : Z :=
  fold_left (fun sc term => if PyStr.contains term title_lower then sc + 3 else sc)
            query_terms score.

Definition text_loop (text : string) (query_terms : list string) (score : Z) : Z :=
  fold_left (fun sc term => sc + PyStr.count text term) query_terms score.

Definition tags_loop (tags_str : string) (query_terms : list string) (score : Z) : Z :=
  fold_left (fun sc term => if PyStr.contains term tags_str then sc + 2 else sc)
            query_terms score.

Definition score_note (n : note) (query_terms : list string) : Z :=
  let text := PyStr.lower (note_title n ++ NL ++ note_text n) in
  let score := 0 in
  let title_lower := PyStr.lower (note_title n) in
  let score := title_loop title_lower query_terms score in
  let score := text_loop text query_terms score in
  let tags_str := PyStr.lower (PyStr.join " " (note_tags n)) in
  tags_loop tags_str query_terms score.

(** [score_note] with [str.lower] as the parameter [lower]: the same three
    loops.  [score_note] is [score_note_with PyStr.lower]. *)
Definition score_note_with (lower : string → string) (n : note)
    (query_terms : list string) : Z :=
  let text := lower (note_title n ++ NL ++ note_text n) in
  let score := 0 in
  let title_lower := lower (note_title n) in
  let score := title_loop title_lower query_terms score in
  let score := text_loop text query_terms score in
  let tags_str := lower (PyStr.join " " (note_tags n)) in
  tags_loop tags_str query_terms score.

(** The contribution of one term as the specification words it, with one
    point for every position at which the term starts. *)
Definition term_score_claimed (lower : string → string) (n : note) (term : string) : Z :=
  (if PyStr.contains term (lower (note_title n)) then 3 else 0)
  + PyStr.occurrences term (lower (note_title n ++ NL ++ note_text n))
  + (if PyStr.contains term (lower (PyStr.join " " (note_tags n))) then 2 else 0).

(** The per-term contribution the specification describes. *)
Definition term_score (n : note) (term : string) : Z :=
  (if PyStr.contains term (PyStr.lower (note_title n)) then 3 else 0)
  + PyStr.count (PyStr.lower (note_title n ++ NL ++ note_text n)) term
  + (if PyStr.contains term (PyStr.lower (PyStr.join " " (note_tags n))) then 2 else 0).

Fixpoint sum_over (f : string → Z) (l : list string) : Z :=
  match l with
  | [] => 0
  | x :: l' => f x + sum_over f l'
  end.

(** ** Link expansion *)

(** [{n["id"]: n for n in notes if n["id"]}]: a later note with the same id
    replaces an earlier one. *)
Definition index_step (m : gmap string note) (n : note) : gmap string note :=
  match note_id n with
  | Some i => if truthy (Some i) then <[i := n]> m else m
  | None => m
  end.

Definition notes_by_id (notes : list note) : gmap string note :=
  fold_left index_step notes ∅.

(** Body of [for link in note["links"]]. *)
Definition link_step (expanded next_layer : gset string) (l : link) : gset string :=
  match link_to l with
  | Some target =>
      if truthy (Some target) && negb (bool_decide (target ∈ expanded))
      then next_layer ∪ {[target]}
      else next_layer
  | None => next_layer
  end.

(** Body of [for note_id in current]. *)
Definition visit (idx : gmap string note) (expanded next_layer : gset string)
    (nid : string) : gset string :=
  match idx !! nid with
  | None => next_layer
  | Some n => fold_left (link_step expanded) (note_links n) next_layer
  end.

(** One round: the frontier built from [current]. *)
Definition layer_of (idx : gmap string note) (current expanded : gset string) : gset string :=
  fold_left (visit idx expanded) (elements current) ∅.

(** [for _ in range(hops)]: the state is [(current, expanded)]; the second
    component of the result lists the frontier every executed round produced,
    oldest first. *)
Fixpoint expand_loop (idx : gmap string note) (rounds : nat)
    (current expanded : gset string) : gset string * list (gset string) :=
  match rounds with
  | O => (expanded, [])
  | S r =>
      let next_layer := layer_of idx current expanded in
      let expanded := expanded ∪ next_layer in
      let current := next_layer in
      if bool_decide (current = ∅)
      then (expanded, [next_layer])
      else let '(e, tr) := expand_loop idx r current expanded in
           (e, next_layer :: tr)
  end.

(** [range(hops)] is empty for a negative [hops]. *)
Definition expand_run (notes : list note) (seed_ids : gset string) (hops : Z)
    : gset string * list (gset string) :=
  expand_loop (notes_by_id notes) (Z.to_nat hops) seed_ids seed_ids.

Definition expand_links (notes : list note) (seed_ids : gset string) (hops : Z)
    : gset string :=
  fst (expand_run notes seed_ids hops).

(** Frontiers of the executed rounds. *)
Definition expand_trace (notes : list note) (seed_ids : gset string) (hops : Z)
    : list (gset string) :=
  snd (expand_run notes seed_ids hops).

(** The set [current] of round [i] (rounds counted from 0): the seeds in the
    first round, afterwards the frontier of the round before. *)
Definition frontier_before (seed_ids : gset string) (frontiers : list (gset string))
    (i : nat) : gset string :=
  match i with
  | O => seed_ids
  | S j => default ∅ (frontiers !! j)
  end.

(** *** What the specification says about expansion *)

(** An id resolves when the index has a note for it. *)
Definition resolvable (notes : list note) (i : string) : Prop :=
  is_Some (notes_by_id notes !! i).

(** [i] has an outbound link to the non-empty target [j]. *)
Definition links_to (notes : list note) (i j : string) : Prop :=
  ∃ n, notes_by_id notes !! i = Some n ∧ Link (Some j) ∈ note_links n ∧ j ≠ "".

(** Ids at link distance [k] from a seed (every id on the way resolves, the
    last one need not). *)
Fixpoint reach (notes : list note) (seed_ids : gset string) (k : nat) (j : string) : Prop :=
  match k with
  | O => j ∈ seed_ids
  | S k' => ∃ i, reach notes seed_ids k' i ∧ links_to notes i j
  end.

(** The same, where only resolvable targets are followed: the reading of
    "seeds united with resolvable ids reachable within the hops". *)
Fixpoint reach_resolvable (notes : list note) (seed_ids : gset string) (k : nat)
    (j : string) : Prop :=
  match k with
  | O => j ∈ seed_ids
  | S k' => ∃ i, reach_resolvable notes seed_ids k' i ∧ links_to notes i j
                 ∧ resolvable notes j
  end.

(** ** Recency filter *)

Inductive exn : Type := ValueError | TypeError | OverflowError.

Inductive result (A : Type) : Type :=
  | Ok (a : A)
  | Raise (e : exn).
Arguments Ok {A} a.
Arguments Raise {A} e.

Definition bind {A B : Type} (r : result A) (k : A → result B) : result B :=
  match r with
  | Ok a => k a
  | Raise e => Raise e
  end.

Module PyDate.

Definition DAY_US : Z := 86400000000.
Definition MINYEAR : Z := 1.
Definition MAXYEAR : Z := 9999.

Definition is_leap (y : Z) : bool :=
  (y mod 4 =? 0) && (negb (y mod 100 =? 0) || (y mod 400 =? 0)).

Definition days_before_year (y : Z) : Z :=
  let y1 := y - 1 in y1 * 365 + y1 / 4 - y1 / 100 + y1 / 400.

Definition days_in_month (y m : Z) : Z :=
  if m =? 2 then (if is_leap y then 29 else 28)
  else if (m =? 4) || (m =? 6) || (m =? 9) || (m =? 11) then 30
  else 31.

Fixpoint days_before_month_aux (y : Z) (k : nat) : Z :=
  match k with
  | O => 0
  | S k' => days_before_month_aux y k' + days_in_month y (Z.of_nat k)
  end.

Definition days_before_month (y m : Z) : Z :=
  days_before_month_aux y (Z.to_nat (m - 1)).

Definition ymd2ord (y m d : Z) : Z :=
  days_before_year y + days_before_month y m + d.

(** [datetime(y, m, d)]: midnight of that day. *)
Definition midnight (y m d : Z) : Z := (ymd2ord y m d - 1) * DAY_US.

(** Largest naive datetime, 9999-12-31T23:59:59.999999. *)
Definition MAX_US : Z := ymd2ord MAXYEAR 12 31 * DAY_US - 1.

Definition valid_date (y m d : Z) : bool :=
  (MINYEAR <=? y) && (y <=? MAXYEAR) && (1 <=? m) && (m <=? 12)
  && (1 <=? d) && (d <=? days_in_month y m).

(** [\\d] among the ASCII characters: 0 to 9.  The decimal digits the
    library knows above 127 are not in this table. *)
Definition is_digit (c : ascii) : bool :=
  let n := nat_of_ascii c in ((48 <=? n)%nat && (n <=? 57)%nat)%bool.

Definition digit_val (c : ascii) : Z := Z.of_nat (nat_of_ascii c) - 48.

Definition in_range (lo hi : nat) (c : ascii) : bool :=
  let n := nat_of_ascii c in ((lo <=? n)%nat && (n <=? hi)%nat)%bool.

(** Ordered choice with backtracking, as the regex engine tries the
    alternatives of a group. *)
Definition orelse {A : Type} (a b : option A) : option A :=
  match a with
  | Some x => Some x
  | None => b
  end.

(** [(?P<Y>\d\d\d\d)] *)
Definition re_year {A : Type} (s : string) (k : Z → string → option A) : option A :=
  match s with
  | String a (String b (String c (String d rest))) =>
      if is_digit a && is_digit b && is_digit c && is_digit d
      then k (digit_val a * 1000 + digit_val b * 100 + digit_val c * 10 + digit_val d) rest
      else None
  | _ => None
  end.

(** A literal ["-"]. *)
Definition re_dash {A : Type} (s : string) (k : string → option A) : option A :=
  match s with
  | String c rest => if Ascii.eqb c "-" then k rest else None
  | EmptyString => None
  end.

(** Two characters, the first in [lo1..hi1] and the second in [lo2..hi2],
    read as a two-digit number. *)
Definition re_two {A : Type} (lo1 hi1 lo2 hi2 : nat) (s : string)
    (k : Z → string → option A) : option A :=
  match s with
  | String a (String b rest) =>
      if in_range lo1 hi1 a && in_range lo2 hi2 b
      then k (digit_val a * 10 + digit_val b) rest
      else None
  | _ => None
  end.

(** One character in [1-9]. *)
Definition re_one {A : Type} (s : string) (k : Z → string → option A) : option A :=
  match s with
  | String a rest => if in_range 49 57 a then k (digit_val a) rest else None
  | EmptyString => None
  end.

(** [(?P<m>1[0-2]|0[1-9]|[1-9])] *)
Definition re_month {A : Type} (s : string) (k : Z → string → option A) : option A :=
  orelse (re_two 49 49 48 50 s k) (orelse (re_two 48 48 49 57 s k) (re_one s k)).

(** [(?P<d>3[0-1]|[1-2]\d|0[1-9]|[1-9]| [1-9])] *)
Definition re_day {A : Type} (s : string) (k : Z → string → option A) : option A :=
  orelse (re_two 51 51 48 49 s k)
    (orelse (re_two 49 50 48 57 s k)
       (orelse (re_two 48 48 49 57 s k)
          (orelse (re_one s k)
             (match s with
              | String a rest => if Ascii.eqb a " " then re_one rest k else None
              | EmptyString => None
              end)))).

(** The match of the compiled format ["%Y-%m-%d"] at the start of [s]:
    the three numbers and the text left over. *)
Definition match_ymd (s : string) : option (Z * Z * Z * string) :=
  re_year s (fun y s1 =>
  re_dash s1 (fun s2 =>
  re_month s2 (fun m s3 =>
  re_dash s3 (fun s4 =>
  re_day s4 (fun d rest => Some (y, m, d, rest)))))).

(** [datetime.strptime(s, "%Y-%m-%d")] with the ASCII digits: no match,
    unconverted text and an impossible date all raise [ValueError]. *)
Definition strptime (s : string) : result Z :=
  match match_ymd s with
  | Some (y, m, d, EmptyString) =>
      if valid_date y m d then Ok (midnight y m d) else Raise ValueError
  | _ => Raise ValueError
  end.

(** [now - timedelta(days=days)] *)
Definition cutoff (now days : Z) : result Z :=
  if (days <? -999999999) || (999999999 <? days) then Raise OverflowError
  else let c := now - days * DAY_US in
       if (c <? 0) || (MAX_US <? c) then Raise OverflowError else Ok c.

End PyDate.

(** [if not updated]: falsy values of the [updated] key. *)
Definition falsy (v : pyval) : bool :=
  match v with
  | VNone => true
  | VStr s => String.eqb s EmptyString
  | VOther t => negb t
  | VDate _ _ _ | VDateTime _ | VAwareDateTime _ => false
  end.

(** [updated_dt >= cutoff] for the value bound to [updated_dt]; [cutoff] is
    a naive datetime, and only a naive datetime compares with it. *)
Definition ge_cutoff (updated_dt : pyval) (cutoff : Z) : result bool :=
  match updated_dt with
  | VDateTime us => Ok (cutoff <=? us)
  | _ => Raise TypeError
  end.

(** The body of the [try]: [Ok (Some i)] when [i] is added to [recent]. *)
Definition recent_try (cutoff : Z) (n : note) : result (option string) :=
  let updated := note_updated n in
  bind (match updated with
        | VStr s => bind (PyDate.strptime s) (fun us => Ok (VDateTime us))
        | _ => Ok updated
        end) (fun updated_dt =>
  bind (ge_cutoff updated_dt cutoff) (fun ge =>
  if ge then
    match note_id n with
    | Some i => if truthy (Some i) then Ok (Some i) else Ok None
    | None => Ok None
    end
  else Ok None)).

(** Body of [for note in notes], with [except Exception: pass]. *)
Definition recent_step (cutoff : Z) (recent : gset string) (n : note) : gset string :=
  if falsy (note_updated n) then recent
  else match recent_try cutoff n with
       | Ok (Some i) => recent ∪ {[i]}
       | Ok None => recent
       | Raise _ => recent
       end.

Definition recent_loop (cutoff : Z) (notes : list note) : gset string :=
  fold_left (recent_step cutoff) notes ∅.

Definition get_recent_notes (now : Z) (notes : list note) (days : Z)
    : result (gset string) :=
  bind (PyDate.cutoff now days) (fun c => Ok (recent_loop c notes)).

(** The same loop with the library call [datetime.strptime(_, "%Y-%m-%d")]
    as the parameter [strptime], for the statements that hold whatever
    strings the library accepts; [get_recent_notes] is
    [get_recent_notes_with PyDate.strptime]. *)
Definition recent_try_with (strptime : string → result Z) (cutoff : Z) (n : note)
    : result (option string) :=
  let updated := note_updated n in
  bind (match updated with
        | VStr s => bind (strptime s) (fun us => Ok (VDateTime us))
        | _ => Ok updated
        end) (fun updated_dt =>
  bind (ge_cutoff updated_dt cutoff) (fun ge =>
  if ge then
    match note_id n with
    | Some i => if truthy (Some i) then Ok (Some i) else Ok None
    | None => Ok None
    end
  else Ok None)).

Definition recent_step_with (strptime : string → result Z) (cutoff : Z)
    (recent : gset string) (n : note) : gset string :=
  if falsy (note_updated n) then recent
  else match recent_try_with strptime cutoff n with
       | Ok (Some i) => recent ∪ {[i]}
       | Ok None => recent
       | Raise _ => recent
       end.

Definition recent_loop_with (strptime : string → result Z) (cutoff : Z)
    (notes : list note) : gset string :=
  fold_left (recent_step_with strptime cutoff) notes ∅.

Definition get_recent_notes_with (strptime : string → result Z) (now : Z)
    (notes : list note) (days : Z) : result (gset string) :=
  bind (PyDate.cutoff now days) (fun c => Ok (recent_loop_with strptime c notes)).

(** ** Keyword top-k *)

(** Insertion into a list already in descending score order: the new pair
    goes after every pair with a strictly greater score and before the first
    pair whose score is not greater, so equal scores keep their order. *)
Fixpoint insert_desc (x : note * Z) (l : list (note * Z)) : list (note * Z) :=
  match l with
  | [] => [x]
  | y :: l' => if snd y <=? snd x then x :: l else y :: insert_desc x l'
  end.

(** [l.sort(key=lambda x: x[1], reverse=True)]: descending and stable. *)
Definition sort_desc (l : list (note * Z)) : list (note * Z) :=
  foldr insert_desc [] l.

(** [[(n, score_note(n, query_terms)) for n in notes]] *)
Definition score_all (notes : list note) (query_terms : list string) : list (note * Z) :=
  map (fun n => (n, score_note n query_terms)) notes.

(** [l[:k]]: a negative [k] counts from the end. *)
Definition slice_to {A : Type} (l : list A) (k : Z) : list A :=
  if 0 <=? k then firstn (Z.to_nat k) l
  else firstn (length l - Z.to_nat (- k)) l.

(** [if note["id"] and score > 0] *)
Definition keyword_ok (p : note * Z) : bool :=
  truthy (note_id (fst p)) && (0 <? snd p).

(** Body of [for note, score in scored[:topk]]. *)
Definition keyword_step (candidate_ids : gset string) (p : note * Z) : gset string :=
  if keyword_ok p
  then match note_id (fst p) with
       | Some i => candidate_ids ∪ {[i]}
       | None => candidate_ids
       end
  else candidate_ids.

(** Step (3) of [create_context_pack], run on [candidate_ids]. *)
Definition add_keyword_ids (candidate_ids : gset string) (notes : list note)
    (query_terms : list string) (topk : Z) : gset string :=
  let scored := sort_desc (score_all notes query_terms) in
  fold_left keyword_step (slice_to scored topk) candidate_ids.

(** The ids step (3) contributes. *)
Definition keyword_ids (notes : list note) (query_terms : list string) (topk : Z)
    : gset string :=
  add_keyword_ids ∅ notes query_terms topk.

(** The specification's wording, "the first [topk] whose score is strictly
    positive and whose id is present": filter first, then take. *)
Definition keyword_ids_spec (notes : list note) (query_terms : list string) (topk : Z)
    : gset string :=
  let scored := sort_desc (score_all notes query_terms) in
  fold_left keyword_step (slice_to (List.filter keyword_ok scored) topk) ∅.

(** Steps (1) to (3): the candidate id set.  [seed_ids] is the list given on
    the command line, [None] when no [--seed] was given. *)
Definition candidate_ids (now : Z) (notes : list note) (query_terms : list string)
    (seed_ids : option (list string)) (hops recent_days topk : Z)
    : result (gset string) :=
  let candidate_ids : gset string := ∅ in
  let candidate_ids :=
    match seed_ids with
    | Some (s :: l) => candidate_ids ∪ expand_links notes (list_to_set (s :: l)) hops
    | _ => candidate_ids
    end in
  bind (get_recent_notes now notes recent_days) (fun recent =>
  let candidate_ids := candidate_ids ∪ recent in
  Ok (add_keyword_ids candidate_ids notes query_terms topk)).

(** Resolution and ranking of the candidates; [order] is the order in which
    the iteration over the set [candidate_ids] yields its elements. *)
Definition rank_candidates (notes : list note) (query_terms : list string)
    (order : list string) : list (note * Z) :=
  let idx := notes_by_id notes in
  let candidate_notes := omap (fun nid => idx !! nid) order in
  sort_desc (score_all candidate_notes query_terms).

(** ** Rendering *)

Module Render.

(** The characters [str.strip] removes and [\\s] matches, among the ASCII
    characters: tab to carriage return, the four separators 28 to 31 and the
    space.  The white space the library knows above 127 is not in this
    table; the statements that depend on it are for ASCII text. *)
Definition is_space (c : ascii) : bool :=
  let n := nat_of_ascii c in
  ((9 <=? n)%nat && (n <=? 13)%nat || (28 <=? n)%nat && (n <=? 32)%nat)%bool.

Fixpoint lstrip (s : string) : string :=
  match s with
  | EmptyString => EmptyString
  | String c s' => if is_space c then lstrip s' else s
  end.

Fixpoint rstrip (s : string) : string :=
  match s with
  | EmptyString => EmptyString
  | String c s' =>
      match rstrip s' with
      | EmptyString => if is_space c then EmptyString else String c EmptyString
      | r => String c r
      end
  end.

Definition strip (s : string) : string := rstrip (lstrip s).

Fixpoint drop (k : nat) (s : string) : string :=
  match k, s with
  | O, _ => s
  | S _, EmptyString => EmptyString
  | S k', String _ s' => drop k' s'
  end.

(** [\\s*\\n] at the start of [s]: the greedy run of white space is given
    back up to its last newline; the result is the text after that newline,
    [best] when the run holds none. *)
Fixpoint after_blank (s : string) (best : option string) : option string :=
  match s with
  | EmptyString => best
  | String c s' =>
      if is_space c
      then after_blank s' (if Ascii.eqb c (ascii_of_nat 10) then Some s' else best)
      else best
  end.

(** [(.*?)(?:\\n## |\\Z)]: the shortest prefix followed by a header line or
    by the end of the text. *)
Fixpoint capture (s : string) : string :=
  if PyStr.startswith (NL ++ "## ") s then EmptyString
  else match s with
       | EmptyString => EmptyString
       | String c s' => String c (capture s')
       end.

(** [re.search] with [re.S | re.M]: the leftmost line start where the whole
    pattern matches; [bol] tells whether the current position starts a
    line. *)
Fixpoint search (head : string) (s : string) (bol : bool) : option string :=
  let here :=
    if bol && PyStr.startswith head s
    then after_blank (drop (String.length head) s) None
    else None in
  match here with
  | Some body => Some (capture body)
  | None =>
      match s with
      | EmptyString => None
      | String c s' => search head s' (Ascii.eqb c (ascii_of_nat 10))
      end
  end.

Definition extract_section (text header : string) : string :=
  match search ("## " ++ header) text true with
  | Some g => strip g
  | None => EmptyString
  end.

(** [str(x)] for an optional string. *)
Definition str_opt (o : option string) : string :=
  match o with
  | Some s => s
  | None => "None"
  end.

Definition BQ : string := String (ascii_of_nat 96) EmptyString.

(** The block of one note.  The call of [extract_section] is the parameter
    [extract]: what the block holds of the two sections depends on the white
    space table of the library, and the rendering loop does not look into
    the block; the source is [section_text extract_section]. *)
Definition section_text (extract : string → string → string) (n : note) : string :=
  let summary := extract (note_text n) "Summary" in
  let key_points := extract (note_text n) "Key Points" in
  let st := NL ++ "### [" ++ str_opt (note_id n) ++ "] " ++ note_title n ++ NL in
  let st := if String.eqb summary EmptyString then st
            else st ++ NL ++ "**Summary:**" ++ NL ++ summary ++ NL in
  let st := if String.eqb key_points EmptyString then st
            else st ++ NL ++ "**Key Points:**" ++ NL ++ key_points ++ NL in
  let st := st ++ NL ++ "- Type: " ++ str_opt (note_type n) in
  let st := st ++ NL ++ "- Tags: " ++ PyStr.join ", " (firstn 5 (note_tags n)) in
  let st := st ++ NL ++ "- Path: " ++ BQ ++ note_rel_path n ++ BQ in
  let st := st ++ NL ++ "- Confidence: " ++ note_confidence n in
  let st := match note_links n with
            | [] => st
            | _ :: _ =>
                let links_str :=
                  PyStr.join ", "
                    (map (fun l => BQ ++ str_opt (link_to l) ++ BQ)
                         (firstn 5 (note_links n))) in
                st ++ NL ++ "- Links: " ++ links_str
            end in
  st ++ NL.

(** [len(section_text) // 4], the length in characters. *)
Definition est_tokens (extract : string → string → string) (n : note) : Z :=
  Z.of_nat (PyStr.len (section_text extract n)) / 4.

(** State of the rendering loop. *)
Record pack : Type := Pack {
  output_lines : list string;
  total_tokens : Z;
  included : Z
}.

(** [for note, score in candidate_notes], with its [break]. *)
Fixpoint render_loop (extract : string → string → string) (max_tokens : Z)
    (candidate_notes : list (note * Z)) (st : pack) : pack :=
  match candidate_notes with
  | [] => st
  | (n, _) :: rest =>
      let section_text := section_text extract n in
      let est := est_tokens extract n in
      if (max_tokens <? total_tokens st + est) && (3 <? included st)
      then st
      else render_loop extract max_tokens rest
             {| output_lines := output_lines st ++ [section_text];
                total_tokens := total_tokens st + est;
                included := included st + 1 |}
  end.

(** The lines appended before the loop. *)
Definition preamble (question : string) : list string :=
  [ "# CONTEXT PACK v1" ++ NL;
    "## Question" ++ NL;
    question ++ NL;
    NL ++ "## Constraints" ++ NL;
    "- 답변은 vault 스키마에 맞춰서 액션/결정/노트 링크까지 제안";
    "- 가능하면 기존 노트를 링크하고, 새 노트가 필요하면 제안";
    NL ++ "## Relevant Notes" ++ NL ].

Definition render (extract : string → string → string) (question : string)
    (max_tokens : Z) (candidate_notes : list (note * Z)) : pack :=
  render_loop extract max_tokens candidate_notes
    {| output_lines := preamble question;
       total_tokens := 0;
       included := 0 |}.

(** ["\\n".join(output_lines)] *)
Definition output_text (p : pack) : string := PyStr.join NL (output_lines p).

(** Estimated tokens of a list of candidates. *)
Fixpoint sum_est (extract : string → string → string) (l : list (note * Z)) : Z :=
  match l with
  | [] => 0
  | p :: l' => est_tokens extract (fst p) + sum_est extract l'
  end.

(** The blocks the loop has appended: the first [k] candidates. *)
Definition blocks (extract : string → string → string) (k : nat)
    (candidate_notes : list (note * Z)) : list string :=
  map (fun p => section_text extract (fst p)) (firstn k candidate_notes).

End Render.

(** ** Example notes *)

Definition alignment_note : note :=
  {| note_id := Some "topic.alignment";
     note_type := Some "topic";
     note_title := "Alignment Research";
     note_tags := ["ai"; "alignment"];
     note_links := [];
     note_updated := VNone;
     note_confidence := "medium";
     note_rel_path := "vault/topics/alignment.md";
     note_text := "alignment is hard" |}.

(** A note with the given id, title, link targets and [updated] value. *)
Definition mk_note (i : option string) (title : string) (targets : list string)
    (u : pyval) : note :=
  {| note_id := i;
     note_type := Some "topic";
     note_title := title;
     note_tags := [];
     note_links := map (fun t => Link (Some t)) targets;
     note_updated := u;
     note_confidence := "medium";
     note_rel_path := "vault/topics/n.md";
     note_text := "" |}.

(** A note whose title holds the term "haha" at two overlapping places. *)
Definition overlap_note : note :=
  {| note_id := Some "log.hahaha";
     note_type := Some "log";
     note_title := "hahaha";
     note_tags := [];
     note_links := [];
     note_updated := VNone;
     note_confidence := "medium";
     note_rel_path := "vault/logs/hahaha.md";
     note_text := "" |}.

(** [n] with another value under [updated]. *)
Definition set_updated (u : pyval) (n : note) : note :=
  {| note_id := note_id n;
     note_type := note_type n;
     note_title := note_title n;
     note_tags := note_tags n;
     note_links := note_links n;
     note_updated := u;
     note_confidence := note_confidence n;
     note_rel_path := note_rel_path n;
     note_text := note_text n |}.

(** A note "a" whose only link points to an id no note has. *)
Definition dead_link_notes : list note := [mk_note (Some "a") "A" ["ghost"] VNone].

(** An [updated] value that is neither a date nor a string that
    [strptime] parses. *)
Definition malformed (strptime : string → result Z) (v : pyval) : Prop :=
  match v with
  | VStr s => ∀ us, strptime s ≠ Ok us
  | VOther _ => True
  | VNone | VDate _ _ _ | VDateTime _ | VAwareDateTime _ => False
  end.

(** The instant an [updated] value denotes for the comparison, when the
    comparison with the cutoff is defined for it. *)
Definition resolved (v : pyval) : option Z :=
  match v with
  | VStr s => match PyDate.strptime s with
              | Ok us => Some us
              | Raise _ => None
              end
  | VDateTime us => Some us
  | _ => None
  end.

(** Two notes with the same id and the same links. *)
Definition same_links (a b : note) : Prop :=
  note_id a = note_id b ∧ note_links a = note_links b.

(** 2026-11-04T12:00:00, and a log note written that day the way
    [distill.py] writes it: [updated: 2026-11-04], which YAML loads as a
    [datetime.date]. *)
Definition noon_2026_11_04 : Z := PyDate.midnight 2026 11 4 + 12 * 3600 * 1000000.

Definition log_note : note :=
  mk_note (Some "log.2026-11-04_rag") "2026-11-04 RAG" [] (VDate 2026 11 4).

(** Two notes that both match "alpha"; the better match has no id. *)
Definition topk_notes : list note :=
  [mk_note None "alpha alpha" [] VNone; mk_note (Some "b") "alpha" [] VNone].

(** Descending order of the scores. *)
Definition desc (a b : note * Z) : Prop := snd b ≤ snd a.

(** A candidate whose block is 161 characters long, 40 estimated tokens. *)
Definition rag_note (k : string) : note :=
  {| note_id := Some ("topic.rag" ++ k);
     note_type := Some "topic";
     note_title := "Retrieval";
     note_tags := ["ai"; "rag"];
     note_links := [Link (Some "topic.alignment")];
     note_updated := VStr "2026-11-01";
     note_confidence := "medium";
     note_rel_path := "vault/topics/rag.md";
     note_text := "# RAG" ++ NL ++ NL ++ "## Summary" ++ NL ++ NL ++ "Retrieve." ++ NL |}.

(** Ten ranked candidates of 40 estimated tokens each. *)
Definition ten_candidates : list (note * Z) :=
  map (fun k => (rag_note k, 0)) ["0"; "1"; "2"; "3"; "4"; "5"; "6"; "7"; "8"; "9"].

(** ** Further definitions used by the properties below *)

(** An ASCII capital letter. *)
Definition is_upper (c : ascii) : bool :=
  let n := nat_of_ascii c in ((65 <=? n)%nat && (n <=? 90)%nat)%bool.

(** The characters of a string. *)
Fixpoint chars (s : string) : list ascii :=
  match s with
  | EmptyString => []
  | String c s' => c :: chars s'
  end.

(** The character of a decimal digit. *)
Definition digit_char (d : Z) : ascii := ascii_of_nat (48 + Z.to_nat d).

(** Zero-padded decimal fields, as [%m] and [%d] print them, and as [%Y]
    prints a year from 1000 on. *)
Definition two_digits (n : Z) : string :=
  String (digit_char (n / 10)) (String (digit_char (n mod 10)) EmptyString).

Definition four_digits (y : Z) : string :=
  String (digit_char (y / 1000))
    (String (digit_char (y / 100 mod 10)) (two_digits (y mod 100))).

(** [date(y, m, d).strftime("%Y-%m-%d")], the form in which [distill.py] and
    [new_note.py] write the day. *)
Definition strftime_ymd (y m d : Z) : string :=
  four_digits y ++ "-" ++ two_digits m ++ "-" ++ two_digits d.

(** A string of white space only. *)
Definition all_space (s : string) : bool := forallb Render.is_space (chars s).

(** The newline character. *)
Definition NLc : ascii := ascii_of_nat 10.

(** No header line [\n## ] starts within [X] in the text [X ++ Y]. *)
Fixpoint no_header_from (X Y : string) : Prop :=
  match X with
  | EmptyString => True
  | String _ X' =>
      PyStr.startswith (NL ++ "## ") (X ++ Y) = false ∧ no_header_from X' Y
  end.

(** Empty, or starting with a white space character. *)
Definition starts_blank (Z : string) : Prop :=
  match Z with
  | EmptyString => True
  | String c _ => Render.is_space c = true
  end.

(** ** Wikilinks (distill.py) *)

Module Distill.

(** [[^\\]]+] at the start of [s]: the longest run of characters other than
    the closing bracket, and the text after it. *)
Fixpoint span_link (s : string) : string * string :=
  match s with
  | EmptyString => (EmptyString, EmptyString)
  | String c s' =>
      if Ascii.eqb c "]" then (EmptyString, s)
      else let '(r, rest) := span_link s' in (String c r, rest)
  end.

(** The pattern [\\[\\[([^\\]]+)\\]\\]] at the start of [s]: the captured
    group and the length of the whole match.  The run cannot be given back:
    a shorter run is followed by a character other than the closing
    bracket. *)
Definition link_at (s : string) : option (string * nat) :=
  match s with
  | String a (String b body) =>
      if Ascii.eqb a "[" && Ascii.eqb b "["
      then let '(r, rest) := span_link body in
           match r with
           | EmptyString => None
           | String _ _ =>
               if PyStr.startswith "]]" rest
               then Some (r, (String.length r + 4)%nat)
               else None
           end
      else None
  | _ => None
  end.

(** [re.findall]: matches from left to right, the scan resuming after each
    match ([skip] characters still belong to the last match). *)
Fixpoint findall_links (s : string) (skip : nat) : list string :=
  match s with
  | EmptyString => []
  | String _ s' =>
      match skip with
      | S k => findall_links s' k
      | O =>
          match link_at s with
          | Some (r, n) => r :: findall_links s' (n - 1)
          | None => findall_links s' 0
          end
      end
  end.

Definition extract_wikilinks (text : string) : list string :=
  findall_links text 0.

(** The lines [create_distill_log] writes under [## Links] for a non-empty
    list of links, as they stand in the text once the lines are joined. *)
Definition link_lines (links : list string) : string :=
  PyStr.join NL (map (fun l => "- [[" ++ l ++ "]]") links).

End Distill.

(** A link name the wikilink pattern can hold: not empty, no closing
    bracket. *)
Definition link_name (l : string) : Prop :=
  l ≠ "" ∧ (("]"%char) ∉ chars l).

(** ** Slugs and query terms *)

(** A character below 128. *)
Definition is_ascii (c : ascii) : bool := (nat_of_ascii c <? 128)%nat.

Definition ascii_text (s : string) : Prop :=
  Forall (fun c => is_ascii c = true) (chars s).

(** A note whose title, body and tags are ASCII. *)
Definition ascii_note (n : note) : Prop :=
  ascii_text (note_title n) ∧ ascii_text (note_text n)
  ∧ Forall ascii_text (note_tags n).

(** [\\w] and [[A-Za-z0-9_]] on an ASCII character. *)
Definition is_word (c : ascii) : bool :=
  let n := nat_of_ascii c in
  ((48 <=? n)%nat && (n <=? 57)%nat || (65 <=? n)%nat && (n <=? 90)%nat
   || (97 <=? n)%nat && (n <=? 122)%nat || (n =? 95)%nat)%bool.

(** A character of a finished slug: [a-z], [0-9], [_] or [-]. *)
Definition slug_char (c : ascii) : bool :=
  let n := nat_of_ascii c in
  ((48 <=? n)%nat && (n <=? 57)%nat || (97 <=? n)%nat && (n <=? 122)%nat
   || (n =? 95)%nat || (n =? 45)%nat)%bool.

Module Slug.

(** What [re.sub(r"[^\\w\\s가-힣-]", "", text)] keeps of an ASCII text. *)
Definition keep (c : ascii) : bool :=
  is_word c || Render.is_space c || Ascii.eqb c "-".

Fixpoint filter_keep (s : string) : string :=
  match s with
  | EmptyString => EmptyString
  | String c s' => if keep c then String c (filter_keep s') else filter_keep s'
  end.

(** [re.sub(r"\\s+", "_", s)]: every maximal run of white space becomes one
    underscore; [in_run] tells that the run has already been replaced. *)
Fixpoint collapse (s : string) (in_run : bool) : string :=
  match s with
  | EmptyString => EmptyString
  | String c s' =>
      if Render.is_space c
      then (if in_run then collapse s' true else String "_" (collapse s' true))
      else String c (collapse s' false)
  end.

Definition slugify (text : string) : string :=
  let text := filter_keep text in
  let text := collapse (Render.strip text) false in
  PyStr.lower text.

End Slug.

Module Terms.

(** The pending run, once it ends. *)
Definition flush (cur : string) : list string :=
  match cur with
  | EmptyString => []
  | String _ _ => [cur]
  end.

(** [re.findall(r"[A-Za-z가-힣0-9_]+", question)] on an ASCII text: the
    maximal runs of word characters, from left to right; [cur] is the run
    being read. *)
Fixpoint token_runs (s : string) (cur : string) : list string :=
  match s with
  | EmptyString => flush cur
  | String c s' =>
      if is_word c then token_runs s' (cur ++ String c EmptyString)
      else (flush cur ++ token_runs s' EmptyString)%list
  end.

(** [[t.lower() for t in re.findall(...) if len(t) >= 2]] *)
Definition query_terms (question : string) : list string :=
  map PyStr.lower
    (List.filter (fun t => (2 <=? String.length t)%nat) (token_runs question EmptyString)).

End Terms.

(** * Properties *)

(** ** Strings *)

Section StringFacts.

Lemma startswith_app (p s : string) :
  PyStr.startswith p s = true ↔ ∃ post, s = p ++ post.
Proof.
  revert s. induction p as [|a p IH]; intros s; simpl.
  - split; [intros _; by exists s | done].
  - destruct s as [|b s]; simpl.
    + split; [done | intros [post H]; discriminate].
    + destruct (Ascii.eqb a b) eqn:E.
      * apply Ascii.eqb_eq in E as ->. rewrite IH.
        split; intros [post H]; exists post; [by rewrite H | by inversion H].
      * apply Ascii.eqb_neq in E.
        split; [done | intros [post H]; inversion H; done].
Qed.

(** [sub in s] holds exactly when [s] is [pre ++ sub ++ post]. *)
Lemma contains_occurs (sub s : string) :
  PyStr.contains sub s = true ↔ PyStr.occurs sub s.
Proof.
  unfold PyStr.occurs. induction s as [|c s IH].
  - simpl. destruct (PyStr.startswith sub "") eqn:E.
    + apply startswith_app in E as [post E]. split; [|done].
      intros _. exists "", post. done.
    + split; [done|]. intros [pre [post H]].
      destruct pre; simpl in H.
      * assert (PyStr.startswith sub "" = true) by (apply startswith_app; eauto).
        congruence.
      * discriminate.
  - cbn [PyStr.contains]. destruct (PyStr.startswith sub (String c s)) eqn:E.
    + apply startswith_app in E as [post E]. split; [|done].
      intros _. exists "", post. done.
    + rewrite IH. split.
      * intros [pre [post H]]. exists (String c pre), post. simpl. by rewrite H.
      * intros [pre [post H]]. destruct pre as [|c' pre]; simpl in H.
        -- assert (PyStr.startswith sub (String c s) = true)
             by (apply startswith_app; eauto).
           congruence.
        -- inversion H; subst. eauto.
Qed.

Lemma count_from_nonneg (sub s : string) (skip : nat) :
  0 ≤ PyStr.count_from sub s skip.
Proof.
  revert skip. induction s as [|c s IH]; intros skip; simpl.
  - destruct skip; [destruct (PyStr.startswith sub "")|]; lia.
  - destruct skip; [|apply IH].
    destruct (PyStr.startswith sub (String c s)).
    + specialize (IH (String.length sub - 1)%nat). lia.
    + apply IH.
Qed.

Lemma count_from_pos_contains (s sub : string) :
  0 < PyStr.count_from sub s 0 ↔ PyStr.contains sub s = true.
Proof.
  induction s as [|c s IH].
  - simpl. destruct (PyStr.startswith sub ""); split; (lia || done).
  - cbn [PyStr.count_from PyStr.contains].
    destruct (PyStr.startswith sub (String c s)).
    + pose proof (count_from_nonneg sub s (String.length sub - 1)).
      split; [done | lia].
    + apply IH.
Qed.

Lemma count_nonneg (s sub : string) : 0 ≤ PyStr.count s sub.
Proof.
  unfold PyStr.count. destruct sub; [lia | apply count_from_nonneg].
Qed.

(** The count is positive exactly when the term occurs at all. *)
Lemma count_pos_contains (s sub : string) :
  0 < PyStr.count s sub ↔ PyStr.contains sub s = true.
Proof.
  unfold PyStr.count. destruct sub as [|a sub].
  - split; [|lia]. intros _. by destruct s.
  - apply count_from_pos_contains.
Qed.

Lemma length_append (a b : string) :
  String.length (a ++ b) = (String.length a + String.length b)%nat.
Proof.
  induction a as [|c a IH]; [done|].
  change (S (String.length (a ++ b)) = S (String.length a + String.length b)).
  by rewrite IH.
Qed.

Lemma count_from_skip (sub a rest : string) :
  PyStr.count_from sub (a ++ rest) (String.length a) = PyStr.count_from sub rest 0.
Proof.
  induction a as [|c a IH]; [done|].
  change (String c a ++ rest) with (String c (a ++ rest)). exact IH.
Qed.

Lemma contains_cons (sub : string) (c : ascii) (s : string) :
  PyStr.contains sub (String c s)
  = PyStr.startswith sub (String c s) || PyStr.contains sub s.
Proof. cbn [PyStr.contains]. by destruct (PyStr.startswith sub (String c s)). Qed.

(** The count of a non-empty term is what the scan from left to right
    counts. *)
Lemma count_from_scan (sub : string) (n : nat) :
  sub ≠ "" →
  ∀ s, (String.length s ≤ n)%nat → PyStr.scan sub s (PyStr.count_from sub s 0).
Proof.
  intros Hsub. induction n as [|n IH]; intros s Hlen.
  - destruct s as [|c s]; [|simpl in Hlen; lia].
    destruct sub as [|a sub]; [done|]. simpl.
    apply PyStr.scan_stop. rewrite <- contains_occurs. by simpl.
  - destruct s as [|c s].
    + destruct sub as [|a sub]; [done|]. simpl.
      apply PyStr.scan_stop. rewrite <- contains_occurs. by simpl.
    + simpl in Hlen. cbn [PyStr.count_from].
      destruct (PyStr.startswith sub (String c s)) eqn:E.
      * destruct (proj1 (startswith_app sub (String c s)) E) as [post Hpost].
        destruct sub as [|a sub]; [done|].
        change (String a sub ++ post) with (String a (sub ++ post)) in Hpost.
        injection Hpost as -> ->.
        replace (String.length (String a sub) - 1)%nat with (String.length sub)
          by (simpl; lia).
        rewrite count_from_skip.
        change (String a (sub ++ post)) with ("" ++ String a sub ++ post).
        apply PyStr.scan_step.
        -- intros pre' post' _. simpl. lia.
        -- apply IH. rewrite length_append in Hlen. lia.
      * assert (Hs : PyStr.scan sub s (PyStr.count_from sub s 0))
          by (apply IH; lia).
        inversion Hs as [s0 Hno Heq Hk|pre rest k Hleft Hrest Heq Hk].
        -- apply PyStr.scan_stop. rewrite <- contains_occurs, contains_cons, E.
           rewrite <- contains_occurs in Hno. by destruct (PyStr.contains sub s).
        -- change (String c (pre ++ sub ++ rest))
             with (String c pre ++ sub ++ rest).
           apply PyStr.scan_step; [|done].
           intros pre' post' Hdec. destruct pre' as [|c' pre'].
           ++ exfalso. change ("" ++ sub ++ post') with (sub ++ post') in Hdec.
              assert (PyStr.startswith sub (String c s) = true); [|congruence].
              apply startswith_app. exists post'. by rewrite <- Heq, <- Hdec.
           ++ change (String c (pre ++ sub ++ rest) = String c' (pre' ++ sub ++ post'))
                in Hdec.
              injection Hdec as _ Hdec. specialize (Hleft pre' post' Hdec).
              simpl. lia.
Qed.

Lemma count_scan (s sub : string) :
  sub ≠ "" → PyStr.scan sub s (PyStr.count s sub).
Proof.
  intros Hsub. unfold PyStr.count. destruct sub as [|a sub]; [done|].
  by apply (count_from_scan _ (String.length s)).
Qed.

(** Occurrences that overlap an earlier one are not counted. *)
Example count_overlapping : PyStr.count "aaa" "aa" = 1.
Proof. reflexivity. Qed.

End StringFacts.

(** ** Scoring *)

Section Scoring.

Lemma title_loop_sum (t : string) (terms : list string) (acc : Z) :
  title_loop t terms acc
  = acc + sum_over (fun term => if PyStr.contains term t then 3 else 0) terms.
Proof.
  unfold title_loop. revert acc.
  induction terms as [|x l IH]; intros acc; simpl; [lia|].
  rewrite IH. destruct (PyStr.contains x t); lia.
Qed.

Lemma text_loop_sum (t : string) (terms : list string) (acc : Z) :
  text_loop t terms acc = acc + sum_over (fun term => PyStr.count t term) terms.
Proof.
  unfold text_loop. revert acc.
  induction terms as [|x l IH]; intros acc; simpl; [lia|].
  rewrite IH. lia.
Qed.

Lemma tags_loop_sum (t : string) (terms : list string) (acc : Z) :
  tags_loop t terms acc
  = acc + sum_over (fun term => if PyStr.contains term t then 2 else 0) terms.
Proof.
  unfold tags_loop. revert acc.
  induction terms as [|x l IH]; intros acc; simpl; [lia|].
  rewrite IH. destruct (PyStr.contains x t); lia.
Qed.

Lemma sum_over_add (f g : string → Z) (l : list string) :
  sum_over f l + sum_over g l = sum_over (fun x => f x + g x) l.
Proof. induction l as [|x l IH]; simpl; lia. Qed.

Lemma score_note_sum (n : note) (terms : list string) :
  score_note n terms = sum_over (term_score n) terms.
Proof.
  unfold score_note. rewrite tags_loop_sum, text_loop_sum, title_loop_sum.
  rewrite Z.add_0_l, !sum_over_add. reflexivity.
Qed.

Lemma term_score_nonneg (n : note) (term : string) : 0 ≤ term_score n term.
Proof.
  unfold term_score.
  pose proof (count_nonneg (PyStr.lower (note_title n ++ NL ++ note_text n)) term) as H.
  repeat match goal with |- context [if ?b then _ else _] => destruct b end; lia.
Qed.

Lemma score_note_nonneg (n : note) (terms : list string) : 0 ≤ score_note n terms.
Proof.
  rewrite score_note_sum. induction terms as [|x l IH]; simpl; [lia|].
  pose proof (term_score_nonneg n x). lia.
Qed.

Lemma score_note_with_sum (lower : string → string) (n : note) (terms : list string) :
  score_note_with lower n terms
  = sum_over (fun term =>
      (if PyStr.contains term (lower (note_title n)) then 3 else 0)
      + PyStr.count (lower (note_title n ++ NL ++ note_text n)) term
      + (if PyStr.contains term (lower (PyStr.join " " (note_tags n)))
         then 2 else 0)) terms.
Proof.
  unfold score_note_with. rewrite tags_loop_sum, text_loop_sum, title_loop_sum.
  rewrite Z.add_0_l, !sum_over_add. reflexivity.
Qed.

(** The score of the source is the score with the ASCII case mapping. *)
Lemma score_note_with_lower (n : note) (terms : list string) :
  score_note n terms = score_note_with PyStr.lower n terms.
Proof. reflexivity. Qed.

(** C1 (as amended): whatever [str.lower] returns, the relevance score is the
    sum over the query terms of 3 when the term occurs in the lowercased
    title, plus the count of the term in the lowercased title, newline and
    body, plus 2 when the term occurs in the lowercased space-joined tags.
    "Occurs" is the substring relation.  The count is the one of a scan from
    left to right that resumes behind each occurrence it has counted, so
    occurrences that overlap a counted one are left out; for the empty term
    it is the number of characters plus one.  With a case mapping that is
    the ASCII one on ASCII text, the note titled "Alignment Research" scores
    exactly 7 for the term "alignment". *)
Theorem score_note_formula (lower : string → string)
    (Hlower : ∀ s, ascii_text s → lower s = PyStr.lower s) :
  (∀ (n : note) (terms : list string),
     score_note_with lower n terms
     = sum_over (fun term =>
         (if PyStr.contains term (lower (note_title n)) then 3 else 0)
         + PyStr.count (lower (note_title n ++ NL ++ note_text n)) term
         + (if PyStr.contains term (lower (PyStr.join " " (note_tags n)))
            then 2 else 0)) terms)
  ∧ (∀ sub s : string, PyStr.contains sub s = true ↔ PyStr.occurs sub s)
  ∧ (∀ sub s : string, sub ≠ "" → PyStr.scan sub s (PyStr.count s sub))
  ∧ (∀ s : string, PyStr.count s "" = Z.of_nat (PyStr.len s) + 1)
  ∧ score_note_with lower alignment_note ["alignment"] = 3 + 2 * 1 + 2
  ∧ score_note_with lower alignment_note ["alignment"] = 7.
Proof.
  assert (Hex : score_note_with lower alignment_note ["alignment"] = 7).
  { unfold score_note_with. cbn [note_title note_text note_tags alignment_note].
    rewrite !Hlower by (unfold ascii_text; vm_compute; repeat constructor).
    vm_compute. reflexivity. }
  split; [|split; [|split; [|split; [|split]]]].
  - intros n terms. apply score_note_with_sum.
  - apply contains_occurs.
  - intros sub s Hsub. by apply count_scan.
  - reflexivity.
  - rewrite Hex. reflexivity.
  - exact Hex.
Qed.

Lemma score_note_formula_witness :
  score_note_with PyStr.lower alignment_note ["alignment"] = 7.
Proof.
  refine (proj2 (proj2 (proj2 (proj2 (proj2 (score_note_formula PyStr.lower _)))))).
  intros s _. reflexivity.
Defined.

(** C1 (as stated) fails: in the note titled "hahaha" the term "haha" starts
    at two positions of the counted text, so the claim gives 3 + 2; the scan
    of [str.count] resumes behind the first occurrence and counts one, and
    the score is 3 + 1. *)
Lemma score_overlap_counterexample :
  PyStr.occurrences "haha" (PyStr.lower (note_title overlap_note ++ NL
                                         ++ note_text overlap_note)) = 2
  ∧ sum_over (term_score_claimed PyStr.lower overlap_note) ["haha"] = 5
  ∧ score_note_with PyStr.lower overlap_note ["haha"] = 4
  ∧ score_note_with PyStr.lower overlap_note ["haha"]
    ≠ sum_over (term_score_claimed PyStr.lower overlap_note) ["haha"].
Proof.
  split; [vm_compute; reflexivity|].
  split; [vm_compute; reflexivity|].
  split; [vm_compute; reflexivity|].
  vm_compute. discriminate.
Qed.

End Scoring.

(** ** Link expansion *)

Section Expansion.

Lemma truthy_Some (t : string) : truthy (Some t) = true ↔ t ≠ "".
Proof.
  simpl. destruct (String.eqb t "") eqn:E; simpl.
  - apply String.eqb_eq in E. split; [done | congruence].
  - apply String.eqb_neq in E. done.
Qed.

Lemma link_step_elem (E acc : gset string) (l : link) (x : string) :
  x ∈ link_step E acc l ↔ x ∈ acc ∨ ((x ∉ E) ∧ x ≠ "" ∧ l = Link (Some x)).
Proof.
  unfold link_step. destruct l as [[t|]]; simpl.
  - destruct (String.eqb t "") eqn:Et; simpl.
    + apply String.eqb_eq in Et. subst t.
      split; [tauto|]. intros [?|(_ & Hne & Heq)]; [done|]. congruence.
    + apply String.eqb_neq in Et.
      destruct (bool_decide (t ∈ E)) eqn:Em; simpl.
      * apply bool_decide_eq_true in Em.
        split; [tauto|]. intros [?|(Hn & _ & Heq)]; [done|]. congruence.
      * apply bool_decide_eq_false in Em. rewrite elem_of_union, elem_of_singleton.
        split.
        -- intros [?| ->]; [tauto | right; done].
        -- intros [?|(_ & _ & Heq)]; [tauto|]. right. congruence.
  - split; [tauto|]. intros [?|(_ & _ & Heq)]; [done | discriminate].
Qed.

Lemma link_fold_elem (E : gset string) (ls : list link) (acc : gset string) (x : string) :
  x ∈ fold_left (link_step E) ls acc
  ↔ x ∈ acc ∨ ((x ∉ E) ∧ x ≠ "" ∧ Link (Some x) ∈ ls).
Proof.
  revert acc. induction ls as [|l ls IH]; intros acc; simpl.
  - rewrite elem_of_nil. tauto.
  - rewrite IH, link_step_elem, elem_of_cons. split.
    + intros [[?|(? & ? & ->)]|(? & ? & ?)]; tauto.
    + intros [?|(? & ? & [<-|?])]; tauto.
Qed.

(** An edge of the link graph, read off the index. *)
Definition edge (idx : gmap string note) (i j : string) : Prop :=
  ∃ n, idx !! i = Some n ∧ Link (Some j) ∈ note_links n ∧ j ≠ "".

Lemma visit_elem (idx : gmap string note) (E acc : gset string) (i x : string) :
  x ∈ visit idx E acc i ↔ x ∈ acc ∨ ((x ∉ E) ∧ edge idx i x).
Proof.
  unfold visit, edge. destruct (idx !! i) as [n|].
  - rewrite link_fold_elem. split.
    + intros [?|(? & ? & ?)]; [tauto | right; eauto].
    + intros [?|(? & n' & Heq & ? & ?)]; [tauto|].
      assert (n' = n) as -> by congruence. tauto.
  - split; [tauto|]. intros [?|(_ & n & ? & _)]; [done | discriminate].
Qed.

Lemma visit_fold_elem (idx : gmap string note) (E : gset string) (ids : list string)
    (acc : gset string) (x : string) :
  x ∈ fold_left (visit idx E) ids acc
  ↔ x ∈ acc ∨ ((x ∉ E) ∧ ∃ i, i ∈ ids ∧ edge idx i x).
Proof.
  revert acc. induction ids as [|i ids IH]; intros acc; simpl.
  - split; [tauto|]. intros [?|(_ & i & Hi & _)]; [done|].
    by apply elem_of_nil in Hi.
  - rewrite IH, visit_elem. split.
    + intros [[?|(? & ?)]|(? & j & ? & ?)]; [tauto | |].
      * right. split; [done|]. exists i. split; [left | done].
      * right. split; [done|]. exists j. split; [by right | done].
    + intros [?|(? & j & Hj & ?)]; [tauto|].
      apply elem_of_cons in Hj as [->|Hj]; [tauto|].
      right. eauto.
Qed.

(** The frontier of a round: the targets of the current ids that are not
    in the visited set. *)
Lemma layer_of_elem (idx : gmap string note) (C E : gset string) (x : string) :
  x ∈ layer_of idx C E ↔ (x ∉ E) ∧ ∃ i, i ∈ C ∧ edge idx i x.
Proof.
  unfold layer_of. rewrite visit_fold_elem. split.
  - intros [H|(? & i & Hi & ?)]; [by apply not_elem_of_empty in H|].
    apply elem_of_elements in Hi. eauto.
  - intros (? & i & Hi & ?). right. split; [done|].
    exists i. by rewrite elem_of_elements.
Qed.

(** Ids at distance [k] from the set [E]. *)
Fixpoint within (idx : gmap string note) (E : gset string) (k : nat) (x : string) : Prop :=
  match k with
  | O => x ∈ E
  | S k' => ∃ i, within idx E k' i ∧ edge idx i x
  end.

Lemma reach_within (notes : list note) (seeds : gset string) (k : nat) (x : string) :
  reach notes seeds k x ↔ within (notes_by_id notes) seeds k x.
Proof.
  revert x. induction k as [|k IH]; intros x; simpl; [done|].
  unfold links_to, edge. split; intros (i & Hi & He); exists i; (split; [by apply IH | done]).
Qed.

Lemma within_closed (idx : gmap string note) (E : gset string) :
  (∀ i j, i ∈ E → edge idx i j → j ∈ E) →
  ∀ k x, within idx E k x → x ∈ E.
Proof.
  intros Hcl k. induction k as [|k IH]; intros x; simpl; [done|].
  intros (i & Hi & He). eauto.
Qed.

Lemma within_grow (idx : gmap string note) (E E' : gset string) :
  (∀ x, x ∈ E' ↔ within idx E 0 x ∨ within idx E 1 x) →
  ∀ k x, within idx E' k x ↔ within idx E k x ∨ within idx E (S k) x.
Proof.
  intros HE k. induction k as [|k IH]; intros x.
  - apply HE.
  - change (within idx E' (S k) x) with (∃ i, within idx E' k i ∧ edge idx i x).
    split.
    + intros (i & Hi & He). apply IH in Hi as [Hi|Hi].
      * left. exists i. done.
      * right. exists i. done.
    + intros [(i & Hi & He)|(i & Hi & He)]; exists i; (split; [apply IH; tauto | done]).
Qed.

(** The loop invariant: [current] is part of [expanded], and every target of
    an id already expanded and no longer current is in [expanded]. *)
Lemma expand_loop_within (idx : gmap string note) (r : nat) :
  ∀ C E : gset string,
    C ⊆ E →
    (∀ i j, i ∈ E → i ∉ C → edge idx i j → j ∈ E) →
    ∀ x, x ∈ fst (expand_loop idx r C E) ↔ ∃ k, (k ≤ r)%nat ∧ within idx E k x.
Proof.
  induction r as [|r IH]; intros C E HCE Hold x.
  - simpl. split.
    + intros Hx. exists O. done.
    + intros (k & Hk & Hw). assert (k = O) as -> by lia. done.
  - cbn [expand_loop].
    set (L := layer_of idx C E).
    assert (Hstep : ∀ i j, i ∈ E → edge idx i j → j ∈ E ∪ L).
    { intros i j Hi He. destruct (decide (i ∈ C)) as [HiC|HiC].
      - destruct (decide (j ∈ E)) as [?|HjE]; [by apply elem_of_union_l|].
        apply elem_of_union_r, layer_of_elem. eauto.
      - apply elem_of_union_l. eauto. }
    destruct (bool_decide (L = ∅)) eqn:HL.
    + apply bool_decide_eq_true in HL. simpl. rewrite HL, (right_id_L ∅ (∪)).
      split.
      * intros Hx. exists O. split; [lia | done].
      * intros (k & _ & Hw). apply (within_closed idx E) with (k := k); [|done].
        intros i j Hi He. specialize (Hstep i j Hi He).
        rewrite HL, (right_id_L ∅ (∪)) in Hstep. exact Hstep.
    + apply bool_decide_eq_false in HL.
      destruct (expand_loop idx r L (E ∪ L)) as [e tr] eqn:Hrun. simpl.
      assert (Hx : x ∈ e ↔ ∃ k, (k ≤ r)%nat ∧ within idx (E ∪ L) k x).
      { replace e with (fst (expand_loop idx r L (E ∪ L))) by (by rewrite Hrun).
        apply IH; [apply union_subseteq_r|].
        intros i j Hi HiL He. apply elem_of_union in Hi as [Hi|Hi]; [eauto | done]. }
      rewrite Hx.
      assert (Hgrow : ∀ k y, within idx (E ∪ L) k y
                             ↔ within idx E k y ∨ within idx E (S k) y).
      { apply within_grow. intros y. simpl. rewrite elem_of_union. split.
        - intros [?|Hy]; [tauto|]. apply layer_of_elem in Hy as (_ & i & Hi & He).
          right. exists i. split; [apply HCE, Hi | done].
        - intros [?|(i & Hi & He)]; [tauto|].
          apply elem_of_union. eauto. }
      split.
      * intros (k & Hk & Hw). apply Hgrow in Hw as [Hw|Hw].
        -- exists k. split; [lia | done].
        -- exists (S k). split; [lia | done].
      * intros (k & Hk & Hw). destruct k as [|k].
        -- exists O. split; [lia|]. apply Hgrow. tauto.
        -- exists k. split; [lia|]. apply Hgrow. tauto.
Qed.

(** The expansion is the set of ids within [hops] links of a seed. *)
Lemma expand_links_reach (notes : list note) (seeds : gset string) (hops : Z) (x : string) :
  x ∈ expand_links notes seeds hops
  ↔ ∃ k, (k ≤ Z.to_nat hops)%nat ∧ reach notes seeds k x.
Proof.
  unfold expand_links, expand_run.
  rewrite expand_loop_within; [|done|tauto].
  split; intros (k & Hk & Hw); exists k; (split; [done | by apply reach_within]).
Qed.

(** The trace of the loop: how many rounds ran, what each frontier holds,
    and when the loop stopped. *)
Lemma expand_loop_trace (idx : gmap string note) (r : nat) :
  ∀ C E : gset string,
    let e := fst (expand_loop idx r C E) in
    let tr := snd (expand_loop idx r C E) in
    (length tr ≤ r)%nat
    ∧ e = E ∪ ⋃ tr
    ∧ (∀ i L, tr !! i = Some L → L ## E ∪ ⋃ (take i tr))
    ∧ (∀ i L, tr !! i = Some L → L = ∅ → S i = length tr)
    ∧ ((length tr < r)%nat → last tr = Some ∅).
Proof.
  induction r as [|r IH]; intros C E; cbn zeta.
  - simpl. split; [lia|]. split; [by rewrite (right_id_L ∅ (∪))|].
    split; [intros i L Hi; by rewrite lookup_nil in Hi|].
    split; [intros i L Hi; by rewrite lookup_nil in Hi | lia].
  - cbn [expand_loop].
    set (L0 := layer_of idx C E).
    assert (HL0 : L0 ## E).
    { intros y Hy HyE. apply layer_of_elem in Hy as [Hn _]. done. }
    destruct (bool_decide (L0 = ∅)) eqn:Hb.
    + apply bool_decide_eq_true in Hb. simpl.
      split; [lia|]. split; [by rewrite (right_id_L ∅ (∪))|].
      split; [|split].
      * intros [|i] L Hi; simpl in Hi; [|by rewrite lookup_nil in Hi].
        injection Hi as <-. simpl. by rewrite (right_id_L ∅ (∪)).
      * intros [|i] L Hi; simpl in Hi; [done | by rewrite lookup_nil in Hi].
      * intros _. by rewrite Hb.
    + apply bool_decide_eq_false in Hb.
      specialize (IH L0 (E ∪ L0)).
      destruct (expand_loop idx r L0 (E ∪ L0)) as [e tr] eqn:Hrun.
      simpl in IH. destruct IH as (Hlen & He & Hdisj & Hstop & Hlast). simpl.
      split; [lia|]. split; [by rewrite He, (assoc_L (∪))|].
      split; [|split].
      * intros [|i] L Hi; simpl in Hi.
        -- injection Hi as <-. simpl. by rewrite (right_id_L ∅ (∪)).
        -- simpl. rewrite (assoc_L (∪)). eauto.
      * intros [|i] L Hi Hem; simpl in Hi.
        -- injection Hi as <-. done.
        -- f_equal. eauto.
      * intros Hlt. assert (Hlt' : (length tr < r)%nat) by lia.
        specialize (Hlast Hlt'). destruct tr as [|L1 tr']; [done|]. done.
Qed.

(** Every frontier of the trace is the one the round builds from the
    frontier before it and the ids expanded so far. *)
Lemma expand_loop_frontiers (idx : gmap string note) (r : nat) :
  ∀ (C E : gset string) (i : nat) (L : gset string),
    snd (expand_loop idx r C E) !! i = Some L →
    L = layer_of idx (frontier_before C (snd (expand_loop idx r C E)) i)
          (E ∪ ⋃ (take i (snd (expand_loop idx r C E)))).
Proof.
  induction r as [|r IH]; intros C E i L; [simpl; by rewrite lookup_nil|].
  cbn [expand_loop].
  destruct (bool_decide (layer_of idx C E = ∅)) eqn:Hb.
  - simpl. destruct i as [|i]; simpl; [|by rewrite lookup_nil].
    intros [= <-]. by rewrite (right_id_L ∅ (∪)).
  - specialize (IH (layer_of idx C E) (E ∪ layer_of idx C E)).
    destruct (expand_loop idx r (layer_of idx C E) (E ∪ layer_of idx C E))
      as [e tr] eqn:Hrun.
    simpl in IH. simpl. destruct i as [|i]; simpl.
    + intros [= <-]. by rewrite (right_id_L ∅ (∪)).
    + intros Hi. rewrite (IH i L Hi). f_equal.
      * destruct i as [|i]; reflexivity.
      * by rewrite (assoc_L (∪)).
Qed.

(** C2 (as amended): link targets enter the frontier and the result whether
    or not they resolve to a loaded note: the frontier of a round holds
    exactly the non-empty link targets of the loaded notes of the frontier
    before it (of the seeds, in the first round) that are not yet in the
    expanded set.  An id that does not resolve has no links to follow: after
    a frontier of unresolvable ids the next frontier is empty.  The set
    returned is exactly the set of ids that a chain of at most [hops] links
    of loaded notes connects to a seed. *)
Theorem expand_links_reachable (notes : list note) (seeds : gset string) (hops : Z) :
  (∀ x, x ∈ expand_links notes seeds hops
        ↔ ∃ k, (k ≤ Z.to_nat hops)%nat ∧ reach notes seeds k x)
  ∧ (∀ i L, expand_trace notes seeds hops !! i = Some L →
       ∀ x, x ∈ L
            ↔ (x ∉ seeds ∪ ⋃ (take i (expand_trace notes seeds hops)))
              ∧ ∃ j, j ∈ frontier_before seeds (expand_trace notes seeds hops) i
                     ∧ links_to notes j x)
  ∧ (∀ i L L', expand_trace notes seeds hops !! i = Some L →
       (∀ j, j ∈ L → ¬ resolvable notes j) →
       expand_trace notes seeds hops !! (S i) = Some L' → L' = ∅).
Proof.
  assert (Hfr : ∀ i L, expand_trace notes seeds hops !! i = Some L →
       ∀ x, x ∈ L
            ↔ (x ∉ seeds ∪ ⋃ (take i (expand_trace notes seeds hops)))
              ∧ ∃ j, j ∈ frontier_before seeds (expand_trace notes seeds hops) i
                     ∧ links_to notes j x).
  { intros i L Hi x. unfold expand_trace, expand_run in *.
    rewrite (expand_loop_frontiers _ _ _ _ i L Hi) at 1.
    rewrite layer_of_elem. reflexivity. }
  split; [intros x; apply expand_links_reach|]. split; [exact Hfr|].
  intros i L L' Hi Hdead Hi'. apply set_eq. intros x. split.
  - intros Hx. apply (Hfr (S i) L' Hi') in Hx as (_ & j & Hj & n & Hn & _).
    simpl in Hj. rewrite Hi in Hj. simpl in Hj.
    exfalso. apply (Hdead j Hj). by exists n.
  - intros Hx. by apply not_elem_of_empty in Hx.
Qed.

(** C2 (as stated) fails: a note "a" linking to the unknown id "ghost",
    expanded one hop from the seed "a", puts "ghost" in the frontier and in
    the result, although "ghost" is no seed and does not resolve. *)
Lemma expand_dead_link_counterexample :
  expand_trace dead_link_notes {["a"]} 1 = [{["ghost"]}]
  ∧ "ghost" ∈ expand_links dead_link_notes {["a"]} 1
  ∧ ("ghost" ∉ ({["a"]} : gset string))
  ∧ ¬ resolvable dead_link_notes "ghost"
  ∧ ¬ (∀ x, x ∈ expand_links dead_link_notes {["a"]} 1
            ↔ ∃ k, (k ≤ 1)%nat ∧ reach_resolvable dead_link_notes {["a"]} k x).
Proof.
  assert (Hin : "ghost" ∈ expand_links dead_link_notes {["a"]} 1).
  { replace (expand_links dead_link_notes {["a"]} 1)
      with ({["a"; "ghost"]} : gset string) by (vm_compute; reflexivity).
    apply elem_of_union_r, elem_of_singleton. reflexivity. }
  assert (Hseed : "ghost" ∉ ({["a"]} : gset string)).
  { intros H. apply elem_of_singleton in H. discriminate. }
  assert (Hres : ¬ resolvable dead_link_notes "ghost").
  { unfold resolvable. vm_compute. intros [n H]. discriminate. }
  split; [vm_compute; reflexivity|].
  split; [exact Hin|]. split; [exact Hseed|]. split; [exact Hres|].
  intros H. apply H in Hin as (k & Hk & Hr).
  destruct k as [|k]; simpl in Hr; [done|].
  destruct Hr as (i & _ & _ & Hr). done.
Qed.

(** C6: one more hop never loses an id: the expansion with [hops + 1] hops
    contains the expansion with [hops] hops. *)
Theorem expand_links_monotone (notes : list note) (seeds : gset string) (hops : Z) :
  expand_links notes seeds hops ⊆ expand_links notes seeds (hops + 1).
Proof.
  intros x. rewrite !expand_links_reach.
  intros (k & Hk & Hr). exists k. split; [lia | done].
Qed.

(** C7: with a hop count of 0 the expansion is the seed set itself. *)
Theorem expand_links_zero (notes : list note) (seeds : gset string) :
  expand_links notes seeds 0 = seeds.
Proof. reflexivity. Qed.

(** C8: the expansion is a total function of any note list, seed set and hop
    count (cycles, self-links and dead ends included); it runs at most [hops]
    rounds, the frontier of a round holds only ids outside the visited set
    built so far, a round with an empty frontier is the last one, and when
    fewer than [hops] rounds ran the last frontier was empty. *)
Theorem expand_links_terminates (notes : list note) (seeds : gset string) (hops : Z) :
  ∃ (result : gset string) (frontiers : list (gset string)),
    expand_run notes seeds hops = (result, frontiers)
    ∧ (length frontiers ≤ Z.to_nat hops)%nat
    ∧ result = seeds ∪ ⋃ frontiers
    ∧ (∀ i L, frontiers !! i = Some L → L ## seeds ∪ ⋃ (take i frontiers))
    ∧ (∀ i L, frontiers !! i = Some L → L = ∅ → S i = length frontiers)
    ∧ ((length frontiers < Z.to_nat hops)%nat → last frontiers = Some ∅).
Proof.
  unfold expand_run.
  pose proof (expand_loop_trace (notes_by_id notes) (Z.to_nat hops) seeds seeds) as H.
  destruct (expand_loop (notes_by_id notes) (Z.to_nat hops) seeds seeds) as [e tr].
  exists e, tr. split; [reflexivity | exact H].
Qed.

End Expansion.

(** ** Recency *)

Section Recency.

Lemma recent_try_Some (c : Z) (n : note) (i : string) :
  recent_try c n = Ok (Some i)
  ↔ ∃ us, resolved (note_updated n) = Some us ∧ c ≤ us
          ∧ note_id n = Some i ∧ i ≠ "".
Proof.
  unfold recent_try, resolved.
  assert (Hid : ∀ us, c ≤ us →
            (match note_id n with
             | Some i0 => if truthy (Some i0) then Ok (Some i0) else Ok None
             | None => Ok None
             end = Ok (Some i)) ↔ (note_id n = Some i ∧ i ≠ "")).
  { intros us _. destruct (note_id n) as [i0|]; [|split; [done | intros [? _]; done]].
    destruct (truthy (Some i0)) eqn:Ht.
    - apply truthy_Some in Ht. split.
      + intros Heq. injection Heq as ->. done.
      + intros [Heq _]. injection Heq as ->. done.
    - split; [done|]. intros [Heq Hne]. injection Heq as ->.
      apply truthy_Some in Hne. congruence. }
  assert (Hcmp : ∀ us,
            (if c <=? us then
               match note_id n with
               | Some i0 => if truthy (Some i0) then Ok (Some i0) else Ok None
               | None => Ok None
               end
             else Ok None) = Ok (Some i)
            ↔ c ≤ us ∧ note_id n = Some i ∧ i ≠ "").
  { intros us. destruct (c <=? us) eqn:Hc.
    - apply Z.leb_le in Hc. rewrite (Hid us Hc). tauto.
    - apply Z.leb_gt in Hc. split; [done | lia]. }
  destruct (note_updated n) as [|s|y m d|us|us|t]; simpl.
  - split; [done | intros (us & ? & _); done].
  - destruct (PyDate.strptime s) as [us|e]; simpl.
    + rewrite Hcmp. split.
      * intros (? & ? & ?). exists us. done.
      * intros (us' & Heq & ? & ? & ?). injection Heq as <-. done.
    + split; [done | intros (us & ? & _); done].
  - split; [done | intros (us & ? & _); done].
  - rewrite Hcmp. split.
    + intros (? & ? & ?). exists us. done.
    + intros (us' & Heq & ? & ? & ?). injection Heq as <-. done.
  - split; [done | intros (us' & ? & _); done].
  - split; [done | intros (us' & ? & _); done].
Qed.

Lemma resolved_falsy (v : pyval) (us : Z) :
  resolved v = Some us → falsy v = false.
Proof.
  destruct v as [|s| | | |]; simpl; try done.
  destruct s; [|done]. vm_compute. done.
Qed.

(** What one note adds to [recent]. *)
Lemma recent_step_elem (c : Z) (R : gset string) (n : note) (x : string) :
  x ∈ recent_step c R n
  ↔ x ∈ R ∨ ∃ us, resolved (note_updated n) = Some us ∧ c ≤ us
                  ∧ note_id n = Some x ∧ x ≠ "".
Proof.
  unfold recent_step. destruct (falsy (note_updated n)) eqn:Hf.
  - split; [tauto|]. intros [?|(us & Hr & _)]; [done|].
    apply resolved_falsy in Hr. congruence.
  - destruct (recent_try c n) as [[i|]|e] eqn:Ht.
    + apply recent_try_Some in Ht.
      rewrite elem_of_union, elem_of_singleton. split.
      * intros [?| ->]; tauto.
      * intros [?|(us & ? & ? & Heq & ?)]; [tauto|].
        destruct Ht as (_ & _ & _ & Hi & _). right. congruence.
    + split; [tauto|]. intros [?|H]; [done|].
      apply recent_try_Some in H. congruence.
    + split; [tauto|]. intros [?|H]; [done|].
      apply recent_try_Some in H. congruence.
Qed.

Lemma recent_fold_elem (c : Z) (notes : list note) (R : gset string) (x : string) :
  x ∈ fold_left (recent_step c) notes R
  ↔ x ∈ R ∨ ∃ n us, n ∈ notes ∧ resolved (note_updated n) = Some us ∧ c ≤ us
                    ∧ note_id n = Some x ∧ x ≠ "".
Proof.
  revert R. induction notes as [|n notes IH]; intros R; simpl.
  - split; [tauto|]. intros [?|(n & us & Hn & _)]; [done|].
    by apply elem_of_nil in Hn.
  - rewrite IH, recent_step_elem. split.
    + intros [[?|(us & ?)]|(n' & us & ? & ?)]; [tauto| |].
      * right. exists n, us. split; [left | done].
      * right. exists n', us. split; [by right | done].
    + intros [?|(n' & us & Hn & ?)]; [tauto|].
      apply elem_of_cons in Hn as [->|Hn]; [left; right; eauto|].
      right. eauto.
Qed.

(** The recency set: ids of the notes whose [updated] value compares with
    the cutoff and is not before it. *)
Lemma recent_loop_elem (c : Z) (notes : list note) (x : string) :
  x ∈ recent_loop c notes
  ↔ ∃ n us, n ∈ notes ∧ resolved (note_updated n) = Some us ∧ c ≤ us
            ∧ note_id n = Some x ∧ x ≠ "".
Proof.
  unfold recent_loop. rewrite recent_fold_elem. split; [|tauto].
  intros [H|?]; [|done]. by apply not_elem_of_empty in H.
Qed.

Lemma recent_fold_app (c : Z) (l1 l2 : list note) (R : gset string) :
  fold_left (recent_step c) (l1 ++ l2) R
  = fold_left (recent_step c) l2 (fold_left (recent_step c) l1 R).
Proof. apply fold_left_app. Qed.

(** The loop of the source is the loop with the parser of the source. *)
Lemma get_recent_notes_with_strptime (now : Z) (notes : list note) (days : Z) :
  get_recent_notes_with PyDate.strptime now notes days = get_recent_notes now notes days.
Proof. reflexivity. Qed.

Lemma recent_fold_with_app (strptime : string → result Z) (c : Z)
    (l1 l2 : list note) (R : gset string) :
  fold_left (recent_step_with strptime c) (l1 ++ l2) R
  = fold_left (recent_step_with strptime c) l2
      (fold_left (recent_step_with strptime c) l1 R).
Proof. apply fold_left_app. Qed.

(** A note whose [updated] value is malformed leaves [recent] as it is. *)
Lemma recent_step_malformed (strptime : string → result Z) (c : Z)
    (R : gset string) (n : note) :
  malformed strptime (note_updated n) → recent_step_with strptime c R n = R.
Proof.
  intros Hm. unfold recent_step_with, recent_try_with.
  destruct (note_updated n) as [|s|y m d|us|us|t]; simpl in *; try done.
  - destruct (String.eqb s ""); [done|].
    destruct (strptime s) as [us|e] eqn:Hp; [|done].
    exfalso. by apply (Hm us).
  - by destruct (negb t).
Qed.

(** The failure is raised inside the [try] and stopped by its handler. *)
Lemma recent_try_malformed (strptime : string → result Z) (c : Z) (n : note) :
  malformed strptime (note_updated n) →
  falsy (note_updated n) = true ∨ ∃ e, recent_try_with strptime c n = Raise e.
Proof.
  intros Hm. unfold recent_try_with.
  destruct (note_updated n) as [|s|y m d|us|us|t]; simpl in *; try done.
  - right. destruct (strptime s) as [us|e] eqn:Hp.
    + exfalso. by apply (Hm us).
    + exists e. done.
  - destruct t; [right; by exists TypeError | by left].
Qed.

(** The index keeps the links of a note when only other fields change. *)
Lemma index_fold_links (l l' : list note) :
  Forall2 same_links l l' →
  ∀ (m m' : gmap string note),
    (∀ i, note_links <$> m !! i = note_links <$> m' !! i) →
    ∀ i, note_links <$> fold_left index_step l m !! i
         = note_links <$> fold_left index_step l' m' !! i.
Proof.
  induction 1 as [|a b l l' [Hid Hlk] _ IH]; intros m m' Hm; simpl; [done|].
  apply IH. intros i. unfold index_step. rewrite <- Hid.
  destruct (note_id a) as [j|]; [|done].
  destruct (truthy (Some j)); [|done].
  rewrite !lookup_insert. destruct (decide (j = i)); [simpl; by rewrite Hlk | done].
Qed.

Lemma visit_links (idx idx' : gmap string note) (E acc : gset string) (i : string) :
  (∀ i, note_links <$> idx !! i = note_links <$> idx' !! i) →
  visit idx E acc i = visit idx' E acc i.
Proof.
  intros H. specialize (H i). unfold visit.
  destruct (idx !! i) as [n|], (idx' !! i) as [n'|]; simpl in H; try done.
  injection H as ->. done.
Qed.

Lemma layer_of_links (idx idx' : gmap string note) (C E : gset string) :
  (∀ i, note_links <$> idx !! i = note_links <$> idx' !! i) →
  layer_of idx C E = layer_of idx' C E.
Proof.
  intros H. unfold layer_of. generalize (∅ : gset string).
  induction (elements C) as [|i l IH]; intros acc; simpl; [done|].
  rewrite (visit_links idx idx' E acc i H). apply IH.
Qed.

Lemma expand_loop_links (idx idx' : gmap string note) (r : nat) :
  (∀ i, note_links <$> idx !! i = note_links <$> idx' !! i) →
  ∀ C E, expand_loop idx r C E = expand_loop idx' r C E.
Proof.
  intros H. induction r as [|r IH]; intros C E; simpl; [done|].
  rewrite (layer_of_links idx idx' C E H).
  destruct (bool_decide (layer_of idx' C E = ∅)); [done|].
  by rewrite IH.
Qed.

Lemma expand_links_same_links (l l' : list note) (seeds : gset string) (hops : Z) :
  Forall2 same_links l l' → expand_links l seeds hops = expand_links l' seeds hops.
Proof.
  intros H. unfold expand_links, expand_run, notes_by_id.
  rewrite (expand_loop_links _ (fold_left index_step l' ∅)); [done|].
  apply index_fold_links; done.
Qed.

Lemma same_links_refl (l : list note) : Forall2 same_links l l.
Proof. induction l; constructor; [done | done]. Qed.

(** C5 fails on the code: on 2026-11-04 at noon, with a 30 day window, a note
    whose front matter reads [updated: 2026-11-04] (a [datetime.date] once
    loaded) is left out of the recency set, while the same note with the
    quoted string "2026-11-04" is included; the comparison of a date with
    the cutoff raises [TypeError], which the handler discards. *)
Theorem recency_yaml_date_dropped :
  get_recent_notes noon_2026_11_04 [log_note] 30 = Ok ∅
  ∧ recent_try (noon_2026_11_04 - 30 * PyDate.DAY_US) log_note = Raise TypeError
  ∧ get_recent_notes noon_2026_11_04
      [set_updated (VStr "2026-11-04") log_note] 30
    = Ok {["log.2026-11-04_rag"]}.
Proof. vm_compute. done. Qed.

(** A [datetime.date] never enters the recency set, whatever the window. *)
Lemma recent_step_date (c : Z) (R : gset string) (n : note) (y m d : Z) :
  note_updated n = VDate y m d → recent_step c R n = R.
Proof. intros H. unfold recent_step, recent_try. rewrite H. done. Qed.

(** For the values that do compare (a parsable string, a naive datetime),
    the id is in the set exactly when the value is not before the cutoff. *)
Lemma recent_resolved_iff (now days c : Z) (notes : list note) (x : string) :
  PyDate.cutoff now days = Ok c →
  ∃ s, get_recent_notes now notes days = Ok s
       ∧ (x ∈ s ↔ ∃ n us, n ∈ notes ∧ resolved (note_updated n) = Some us
                         ∧ c ≤ us ∧ note_id n = Some x ∧ x ≠ "").
Proof.
  intros Hc. unfold get_recent_notes. rewrite Hc. simpl.
  eexists. split; [reflexivity | apply recent_loop_elem].
Qed.

(** A string date stands for midnight: the day that lies [days] days back
    is inside the window only when [now] is midnight itself. *)
Example recent_string_same_day :
  get_recent_notes noon_2026_11_04
    [set_updated (VStr "2026-10-05") log_note] 30 = Ok ∅
  ∧ get_recent_notes (PyDate.midnight 2026 11 4)
      [set_updated (VStr "2026-10-05") log_note] 30
    = Ok {["log.2026-11-04_rag"]}.
Proof. vm_compute. done. Qed.

(** C9: a note whose [updated] value is present but unparsable (neither a
    date nor a string that [strptime] accepts, whatever strings those are)
    does not make the recency computation fail: the error is raised inside
    the [try] and discarded, the note adds nothing to the recency set (the
    result is the one obtained without the note), and neither its score,
    whatever [str.lower] does, nor the link expansion depends on the
    [updated] value. *)
Theorem malformed_updated_harmless (strptime : string → result Z)
    (lower : string → string) (n : note)
    (Hm : malformed strptime (note_updated n)) :
  (∀ c, falsy (note_updated n) = true ∨ ∃ e, recent_try_with strptime c n = Raise e)
  ∧ (∀ c R, recent_step_with strptime c R n = R)
  ∧ (∀ now l1 l2 days,
       get_recent_notes_with strptime now (l1 ++ n :: l2) days
       = get_recent_notes_with strptime now (l1 ++ l2) days)
  ∧ (∀ now l1 l2 days c, PyDate.cutoff now days = Ok c →
       get_recent_notes_with strptime now (l1 ++ n :: l2) days
       = Ok (recent_loop_with strptime c (l1 ++ l2)))
  ∧ (∀ u terms,
       score_note_with lower (set_updated u n) terms = score_note_with lower n terms)
  ∧ (∀ u l1 l2 seeds hops,
       expand_links (l1 ++ set_updated u n :: l2) seeds hops
       = expand_links (l1 ++ n :: l2) seeds hops).
Proof.
  assert (Hloop : ∀ c l1 l2, recent_loop_with strptime c (l1 ++ n :: l2)
                             = recent_loop_with strptime c (l1 ++ l2)).
  { intros c l1 l2. unfold recent_loop_with. rewrite !recent_fold_with_app. simpl.
    by rewrite recent_step_malformed. }
  split; [intros c; by apply recent_try_malformed|].
  split; [intros c R; by apply recent_step_malformed|].
  split; [|split; [|split]].
  - intros now l1 l2 days. unfold get_recent_notes_with.
    destruct (PyDate.cutoff now days) as [c|e]; simpl; [|done].
    by rewrite Hloop.
  - intros now l1 l2 days c Hc. unfold get_recent_notes_with. rewrite Hc. simpl.
    by rewrite Hloop.
  - intros u terms. reflexivity.
  - intros u l1 l2 seeds hops. apply expand_links_same_links.
    apply Forall2_app; [apply same_links_refl|].
    constructor; [done | apply same_links_refl].
Qed.

Lemma malformed_updated_harmless_witness :
  (∀ c R, recent_step c R (mk_note (Some "a") "A" [] (VStr "yesterday")) = R)
  ∧ get_recent_notes noon_2026_11_04
      [mk_note (Some "a") "A" [] (VStr "yesterday")] 30 = Ok ∅.
Proof.
  assert (Hm : malformed PyDate.strptime
                 (note_updated (mk_note (Some "a") "A" [] (VStr "yesterday")))).
  { intros us. vm_compute. discriminate. }
  pose proof (malformed_updated_harmless PyDate.strptime PyStr.lower _ Hm)
    as (_ & Hstep & Hget & _).
  split; [exact Hstep|].
  etrans; [exact (Hget noon_2026_11_04 [] [] 30) | vm_compute; reflexivity].
Defined.

(** C10: every id in the recency set is the non-empty id of a loaded note,
    and a note without an id, or with an empty one, adds nothing to the set,
    whatever its date. *)
Theorem recent_ids_are_note_ids (now : Z) (notes : list note) (days : Z)
    (s : gset string) (Hs : get_recent_notes now notes days = Ok s) :
  (∀ i, i ∈ s → ∃ n, n ∈ notes ∧ note_id n = Some i ∧ truthy (note_id n) = true)
  ∧ (∀ c R n, truthy (note_id n) = false → recent_step c R n = R)
  ∧ (∀ (l1 : list note) n l2, notes = (l1 ++ n :: l2)%list → truthy (note_id n) = false →
       get_recent_notes now (l1 ++ l2) days = Ok s).
Proof.
  assert (Hstep : ∀ c R n, truthy (note_id n) = false → recent_step c R n = R).
  { intros c R n Hn. apply set_eq. intros x. rewrite recent_step_elem.
    split; [|tauto]. intros [?|(us & _ & _ & Hid & Hne)]; [done|].
    rewrite Hid in Hn. apply truthy_Some in Hne. congruence. }
  unfold get_recent_notes in *.
  destruct (PyDate.cutoff now days) as [c|e]; simpl in *; [|discriminate].
  injection Hs as <-.
  split; [|split; [exact Hstep|]].
  - intros i Hi. apply recent_loop_elem in Hi as (n & us & Hn & _ & _ & Hid & Hne).
    exists n. split; [done|]. split; [done|]. rewrite Hid. by apply truthy_Some.
  - intros l1 n l2 -> Hn. f_equal. unfold recent_loop.
    rewrite !recent_fold_app. simpl. by rewrite Hstep.
Qed.

Lemma recent_ids_are_note_ids_witness :
  get_recent_notes (PyDate.midnight 2026 11 4)
    [mk_note None "A" [] (VStr "2026-11-04");
     mk_note (Some "b") "B" [] (VStr "2026-11-04")] 30 = Ok {["b"]}
  ∧ ∃ n, n ∈ [mk_note None "A" [] (VStr "2026-11-04");
              mk_note (Some "b") "B" [] (VStr "2026-11-04")]
         ∧ note_id n = Some "b" ∧ truthy (note_id n) = true.
Proof.
  assert (H : get_recent_notes (PyDate.midnight 2026 11 4)
                [mk_note None "A" [] (VStr "2026-11-04");
                 mk_note (Some "b") "B" [] (VStr "2026-11-04")] 30 = Ok {["b"]})
    by (vm_compute; reflexivity).
  split; [exact H|].
  apply (proj1 (recent_ids_are_note_ids _ _ _ _ H) "b").
  apply elem_of_singleton. reflexivity.
Defined.

End Recency.

(** ** Keyword top-k *)

Section Keyword.

Lemma keyword_step_elem (acc : gset string) (p : note * Z) (x : string) :
  x ∈ keyword_step acc p
  ↔ x ∈ acc ∨ (keyword_ok p = true ∧ note_id (fst p) = Some x).
Proof.
  unfold keyword_step. destruct (keyword_ok p) eqn:Hok.
  - destruct (note_id (fst p)) as [i|] eqn:Hid.
    + rewrite elem_of_union, elem_of_singleton. split.
      * intros [?| ->]; tauto.
      * intros [?|[_ Heq]]; [tauto|]. right. congruence.
    + split; [tauto|]. intros [?|[_ ?]]; done.
  - split; [tauto|]. intros [?|[? _]]; done.
Qed.

Lemma keyword_fold_elem (l : list (note * Z)) (acc : gset string) (x : string) :
  x ∈ fold_left keyword_step l acc
  ↔ x ∈ acc ∨ ∃ p, p ∈ l ∧ keyword_ok p = true ∧ note_id (fst p) = Some x.
Proof.
  revert acc. induction l as [|p l IH]; intros acc; simpl.
  - split; [tauto|]. intros [?|(p & Hp & _)]; [done|].
    by apply elem_of_nil in Hp.
  - rewrite IH, keyword_step_elem. split.
    + intros [[?|[? ?]]|(q & ? & ? & ?)]; [tauto| |].
      * right. exists p. split; [left | done].
      * right. exists q. split; [by right | done].
    + intros [?|(q & Hq & ? & ?)]; [tauto|].
      apply elem_of_cons in Hq as [->|Hq]; [tauto|].
      right. eauto.
Qed.

Lemma insert_desc_perm (x : note * Z) (l : list (note * Z)) :
  insert_desc x l ≡ₚ x :: l.
Proof.
  induction l as [|y l IH]; simpl; [done|].
  destruct (snd y <=? snd x); [done|].
  rewrite IH. apply Permutation_swap.
Qed.

Lemma sort_desc_perm (l : list (note * Z)) : sort_desc l ≡ₚ l.
Proof.
  unfold sort_desc. induction l as [|x l IH]; simpl; [done|].
  by rewrite insert_desc_perm, IH.
Qed.

Lemma insert_desc_sorted (x : note * Z) (l : list (note * Z)) :
  StronglySorted desc l → StronglySorted desc (insert_desc x l).
Proof.
  induction 1 as [|y l Hs IH Hy]; simpl.
  - constructor; [constructor | constructor].
  - destruct (snd y <=? snd x) eqn:Hc.
    + apply Z.leb_le in Hc. constructor; [by constructor|].
      constructor; [exact Hc|].
      eapply Forall_impl; [exact Hy|]. unfold desc. intros z Hz. lia.
    + apply Z.leb_gt in Hc. constructor; [exact IH|].
      rewrite insert_desc_perm. constructor; [unfold desc; lia | exact Hy].
Qed.

Lemma sort_desc_sorted (l : list (note * Z)) : StronglySorted desc (sort_desc l).
Proof.
  unfold sort_desc. induction l as [|x l IH]; simpl; [constructor|].
  by apply insert_desc_sorted.
Qed.

(** The sort is stable: pairs with the same score keep their order. *)
Lemma insert_desc_stable (v : Z) (x : note * Z) (l : list (note * Z)) :
  List.filter (fun p => snd p =? v) (insert_desc x l)
  = List.filter (fun p => snd p =? v) (x :: l).
Proof.
  induction l as [|y l IH]; [done|].
  cbn [insert_desc]. destruct (snd y <=? snd x) eqn:Hc; [done|].
  apply Z.leb_gt in Hc. cbn [List.filter] in *. rewrite IH.
  destruct (snd x =? v) eqn:Hx; [|done].
  apply Z.eqb_eq in Hx. destruct (snd y =? v) eqn:Hy; [|done].
  apply Z.eqb_eq in Hy. lia.
Qed.

Lemma sort_desc_stable (v : Z) (l : list (note * Z)) :
  List.filter (fun p => snd p =? v) (sort_desc l)
  = List.filter (fun p => snd p =? v) l.
Proof.
  unfold sort_desc. induction l as [|x l IH]; [done|].
  cbn [foldr]. rewrite insert_desc_stable. cbn [List.filter]. by rewrite IH.
Qed.

Lemma take_filter_elem {A : Type} (P : A → bool) (l : list A) (k : nat) (x : A) :
  x ∈ take k l → P x = true → x ∈ take k (List.filter P l).
Proof.
  revert k. induction l as [|a l IH]; intros k Hx HP.
  - rewrite take_nil in Hx. by apply elem_of_nil in Hx.
  - destruct k as [|k]; [by apply elem_of_nil in Hx|].
    cbn [take firstn] in Hx. apply elem_of_cons in Hx as [->|Hx].
    + cbn [List.filter]. rewrite HP. left.
    + specialize (IH k Hx HP). cbn [List.filter]. destruct (P a).
      * by right.
      * apply elem_of_take in IH as (i & Hi & Hlt).
        apply elem_of_take. exists i. split; [done | lia].
Qed.

Lemma keyword_ok_spec (n : note) (sc : Z) (i : string) :
  keyword_ok (n, sc) = true ∧ note_id n = Some i
  ↔ note_id n = Some i ∧ i ≠ "" ∧ 0 < sc.
Proof.
  unfold keyword_ok. simpl. rewrite andb_true_iff, Z.ltb_lt. split.
  - intros [[Ht ?] Hid]. rewrite Hid in Ht. apply truthy_Some in Ht. done.
  - intros (Hid & Hne & ?). rewrite Hid. split; [|done].
    split; [by apply truthy_Some | done].
Qed.

(** C4 (as amended): the score list is the list of all notes with their
    scores, in descending score order; the keyword step contributes the ids
    of exactly those pairs among its first [topk] positions whose score is
    strictly positive and whose id is present, so it contributes no more
    than the first [topk] qualifying notes would. *)
Theorem keyword_ids_topk (notes : list note) (terms : list string) (topk : Z)
    (Hk : 0 < topk) :
  let scored := sort_desc (score_all notes terms) in
  scored ≡ₚ score_all notes terms
  ∧ StronglySorted desc scored
  ∧ (∀ i, i ∈ keyword_ids notes terms topk
          ↔ ∃ (k : nat) n sc, Z.of_nat k < topk ∧ scored !! k = Some (n, sc)
                              ∧ note_id n = Some i ∧ i ≠ "" ∧ 0 < sc)
  ∧ keyword_ids notes terms topk ⊆ keyword_ids_spec notes terms topk.
Proof.
  intros scored.
  split; [apply sort_desc_perm|]. split; [apply sort_desc_sorted|].
  assert (Hslice : ∀ l : list (note * Z), slice_to l topk = take (Z.to_nat topk) l).
  { intros l. unfold slice_to. destruct (0 <=? topk) eqn:H; [done|].
    apply Z.leb_gt in H. lia. }
  split.
  - intros i. unfold keyword_ids, add_keyword_ids. fold scored.
    rewrite keyword_fold_elem, Hslice. split.
    + intros [H|((n & sc) & Hp & Hok & Hid)]; [by apply not_elem_of_empty in H|].
      apply elem_of_take in Hp as (k & Hk' & Hlt).
      exists k, n, sc. split; [lia|]. split; [done|].
      apply keyword_ok_spec. done.
    + intros (k & n & sc & Hlt & Hk' & Hrest). right. exists (n, sc).
      split; [apply elem_of_take; exists k; split; [done | lia]|].
      apply keyword_ok_spec. done.
  - intros i. unfold keyword_ids, keyword_ids_spec, add_keyword_ids. fold scored.
    rewrite !keyword_fold_elem, !Hslice.
    intros [H|(p & Hp & Hok & Hid)]; [by apply not_elem_of_empty in H|].
    right. exists p. split; [by apply take_filter_elem | done].
Qed.

Lemma keyword_ids_topk_witness :
  0 < 1 ∧ "topic.alignment" ∈ keyword_ids [alignment_note] ["alignment"] 1.
Proof.
  assert (H : 0 < 1) by lia. split; [exact H|].
  apply (proj1 (proj2 (proj2 (keyword_ids_topk [alignment_note] ["alignment"] 1 H)))).
  exists O, alignment_note, 7. split; [lia|]. split; [vm_compute; reflexivity|].
  split; [reflexivity|]. split; [discriminate | lia].
Defined.

(** C4 (as stated) fails: with [topk = 1], the best match has no id and
    takes the only position, so the second note, the first one with a
    positive score and an id, contributes nothing. *)
Lemma keyword_topk_counterexample :
  map snd (sort_desc (score_all topk_notes ["alpha"])) = [5; 4]
  ∧ keyword_ids topk_notes ["alpha"] 1 = ∅
  ∧ keyword_ids_spec topk_notes ["alpha"] 1 = {["b"]}
  ∧ keyword_ids topk_notes ["alpha"] 1 ≠ keyword_ids_spec topk_notes ["alpha"] 1.
Proof.
  split; [vm_compute; reflexivity|].
  split; [vm_compute; reflexivity|].
  split; [vm_compute; reflexivity|].
  intros H. assert (Hb : "b" ∈ keyword_ids_spec topk_notes ["alpha"] 1).
  { replace (keyword_ids_spec topk_notes ["alpha"] 1) with ({["b"]} : gset string)
      by (vm_compute; reflexivity).
    by apply elem_of_singleton. }
  rewrite <- H in Hb.
  replace (keyword_ids topk_notes ["alpha"] 1) with (∅ : gset string) in Hb
    by (vm_compute; reflexivity).
  by apply not_elem_of_empty in Hb.
Qed.

End Keyword.

(** ** Rendering *)

Section Rendering.

Import Render.

Lemma length_app (a b : string) :
  String.length (a ++ b) = (String.length a + String.length b)%nat.
Proof. induction a as [|c a IH]; simpl; [done | by rewrite IH]. Qed.

(** The number of characters of a concatenation: a character is counted at
    its first byte. *)
Lemma len_app (a b : string) : PyStr.len (a ++ b) = (PyStr.len a + PyStr.len b)%nat.
Proof.
  induction a as [|c a IH]; [done|].
  change (PyStr.len (String c (a ++ b)) = (PyStr.len (String c a) + PyStr.len b)%nat).
  cbn [PyStr.len]. destruct (PyStr.is_continuation c); rewrite IH; lia.
Qed.

(** The fixed parts of a block alone take 54 characters. *)
Lemma section_text_length (extract : string → string → string) (n : note) :
  (54 ≤ PyStr.len (section_text extract n))%nat.
Proof.
  unfold section_text. cbv zeta.
  destruct (String.eqb (extract (note_text n) "Summary") "");
    destruct (String.eqb (extract (note_text n) "Key Points") "");
    destruct (note_links n);
    rewrite !len_app; simpl; lia.
Qed.

Lemma est_tokens_lower (extract : string → string → string) (n : note) :
  13 ≤ est_tokens extract n.
Proof.
  unfold est_tokens. pose proof (section_text_length extract n) as H.
  apply Z.div_le_lower_bound; lia.
Qed.

Lemma sum_est_lower (extract : string → string → string) (l : list (note * Z)) :
  13 * Z.of_nat (length l) ≤ sum_est extract l.
Proof.
  induction l as [|p l IH]; simpl length; simpl sum_est; [lia|].
  pose proof (est_tokens_lower extract (fst p)). lia.
Qed.

(** The loop appends the blocks of the first [k] candidates, where [k] is
    the first position at which the budget would be exceeded with more than
    3 notes included, or the length of the list. *)
Lemma render_loop_spec (extract : string → string → string) (max_tokens : Z)
    (cands : list (note * Z)) :
  ∀ st : pack,
  ∃ k : nat,
    (k ≤ length cands)%nat
    ∧ render_loop extract max_tokens cands st
      = {| output_lines := (output_lines st ++ blocks extract k cands)%list;
           total_tokens := total_tokens st + sum_est extract (take k cands);
           included := included st + Z.of_nat k |}
    ∧ (∀ n sc, cands !! k = Some (n, sc) →
         max_tokens < total_tokens st + sum_est extract (take k cands) + est_tokens extract n
         ∧ 3 < included st + Z.of_nat k)
    ∧ (∀ (j : nat) n sc, (j < k)%nat → cands !! j = Some (n, sc) →
         total_tokens st + sum_est extract (take j cands) + est_tokens extract n ≤ max_tokens
         ∨ included st + Z.of_nat j ≤ 3).
Proof.
  induction cands as [|[n sc] rest IH]; intros st.
  - exists O. split; [done|]. split.
    + destruct st as [o t i]. simpl. unfold blocks. simpl.
      by rewrite app_nil_r, !Z.add_0_r.
    + split; [intros n sc H; by rewrite lookup_nil in H | intros; lia].
  - cbn [render_loop].
    destruct ((max_tokens <? total_tokens st + est_tokens extract n) && (3 <? included st))
      eqn:Hc.
    + apply andb_true_iff in Hc as [H1 H2].
      apply Z.ltb_lt in H1. apply Z.ltb_lt in H2.
      exists O. split; [simpl; lia|]. split.
      * destruct st as [o t i]. simpl. unfold blocks. simpl.
        by rewrite app_nil_r, !Z.add_0_r.
      * split; [|intros; lia].
        intros n' sc' H. simpl in H. injection H as <- <-. simpl. lia.
    + apply andb_false_iff in Hc.
      destruct (IH {| output_lines := (output_lines st ++ [section_text extract n])%list;
                      total_tokens := total_tokens st + est_tokens extract n;
                      included := included st + 1 |})
        as (k & Hk & Hrun & Hstop & Hbefore).
      exists (S k). split; [simpl; lia|]. split; [|split].
      * rewrite Hrun. simpl. unfold blocks. simpl.
        rewrite <- app_assoc. simpl. f_equal; lia.
      * intros n' sc' H. simpl in H, Hstop. specialize (Hstop n' sc' H).
        simpl. lia.
      * intros [|j] n' sc' Hj H; simpl in H.
        -- injection H as <- <-. simpl.
           destruct Hc as [Hc|Hc]; [left; apply Z.ltb_ge in Hc | right; apply Z.ltb_ge in Hc];
             lia.
        -- assert (Hj' : (j < k)%nat) by lia.
           specialize (Hbefore j n' sc' Hj' H). simpl in Hbefore. simpl. lia.
Qed.

(** C3: given at least 4 ranked candidates, the document holds the preamble
    followed by the blocks of the first [k] candidates for some [k ≥ 4],
    whatever the budget; candidate [k], when there is one, is the first
    after the fourth whose estimated tokens (the number of characters of the
    block divided by 4) would take the running total over the budget, and
    every block included after the fourth kept the total within it.  With
    [max_tokens = 1] exactly the first 4 candidates are included, as for the
    ten candidates of 40 tokens each.  The statement holds for whatever
    [extract_section] returns. *)
Theorem render_minimum_inclusion (extract : string → string → string)
    (question : string) (max_tokens : Z)
    (cands : list (note * Z)) (Hlen : (4 ≤ length cands)%nat) :
  (∃ k : nat,
     (4 ≤ k ≤ length cands)%nat
     ∧ output_lines (render extract question max_tokens cands)
       = (preamble question ++ blocks extract k cands)%list
     ∧ included (render extract question max_tokens cands) = Z.of_nat k
     ∧ total_tokens (render extract question max_tokens cands) = sum_est extract (take k cands)
     ∧ (∀ n sc, cands !! k = Some (n, sc) →
          max_tokens < sum_est extract (take k cands) + est_tokens extract n)
     ∧ (∀ (j : nat) n sc, (4 ≤ j < k)%nat → cands !! j = Some (n, sc) →
          sum_est extract (take j cands) + est_tokens extract n ≤ max_tokens))
  ∧ output_lines (render extract question 1 cands) = (preamble question ++ blocks extract 4 cands)%list
  ∧ included (render extract question 1 cands) = 4
  ∧ (Forall (fun p => est_tokens extract_section (fst p) = 40) ten_candidates
     ∧ length ten_candidates = 10%nat
     ∧ output_lines (render extract question 1 ten_candidates)
       = (preamble question ++ blocks extract 4 ten_candidates)%list).
Proof.
  assert (Hgen : ∀ m, ∃ k : nat,
     (4 ≤ k ≤ length cands)%nat
     ∧ output_lines (render extract question m cands) = (preamble question ++ blocks extract k cands)%list
     ∧ included (render extract question m cands) = Z.of_nat k
     ∧ total_tokens (render extract question m cands) = sum_est extract (take k cands)
     ∧ (∀ n sc, cands !! k = Some (n, sc) →
          m < sum_est extract (take k cands) + est_tokens extract n)
     ∧ (∀ (j : nat) n sc, (4 ≤ j < k)%nat → cands !! j = Some (n, sc) →
          sum_est extract (take j cands) + est_tokens extract n ≤ m)).
  { intros m. unfold render.
    destruct (render_loop_spec extract m cands
                {| output_lines := preamble question; total_tokens := 0; included := 0 |})
      as (k & Hk & Hrun & Hstop & Hbefore).
    simpl in Hstop, Hbefore. exists k. rewrite Hrun. simpl.
    assert (H4 : (4 ≤ k)%nat).
    { destruct (decide (4 ≤ k)%nat) as [?|Hn]; [done|]. exfalso.
      destruct (lookup_lt_is_Some_2 cands k) as [[n sc] Hnk]; [lia|].
      specialize (Hstop n sc Hnk). lia. }
    split; [lia|]. split; [done|]. split; [done|]. split; [done|]. split.
    - intros n sc H. specialize (Hstop n sc H). lia.
    - intros j n sc Hj H. destruct (Hbefore j n sc) as [?|?]; [lia | done | lia | lia]. }
  assert (Hone : ∀ l : list (note * Z), (4 ≤ length l)%nat →
            output_lines (render extract question 1 l) = (preamble question ++ blocks extract 4 l)%list
            ∧ included (render extract question 1 l) = 4).
  { clear Hgen. intros l Hl. unfold render.
    destruct (render_loop_spec extract 1 l
                {| output_lines := preamble question; total_tokens := 0; included := 0 |})
      as (k & Hk & Hrun & Hstop & Hbefore).
    simpl in Hstop, Hbefore. rewrite Hrun. simpl.
    assert (k = 4%nat) as ->; [|done].
    destruct (decide (k < 4)%nat) as [Hlt|Hge].
    - exfalso. destruct (lookup_lt_is_Some_2 l k) as [[n sc] Hnk]; [lia|].
      specialize (Hstop n sc Hnk). lia.
    - destruct (decide (k = 4%nat)) as [?|Hne]; [done|]. exfalso.
      destruct (lookup_lt_is_Some_2 l 4) as [[n sc] Hn4]; [lia|].
      destruct (Hbefore 4%nat n sc) as [Hb|Hb]; [lia | done | | lia].
      pose proof (sum_est_lower extract (take 4 l)) as Hs.
      rewrite length_take in Hs. pose proof (est_tokens_lower extract n). lia. }
  split; [apply Hgen|].
  split; [apply Hone; done|]. split; [apply Hone; done|].
  split; [|split; [reflexivity|]].
  - unfold ten_candidates. repeat constructor.
  - apply Hone. simpl. lia.
Qed.

Lemma render_minimum_inclusion_witness :
  output_lines (render extract_section "What is RAG?" 1 ten_candidates)
  = (preamble "What is RAG?" ++ blocks extract_section 4 ten_candidates)%list.
Proof.
  assert (H : (4 ≤ length ten_candidates)%nat) by (simpl; lia).
  exact (proj1 (proj2 (render_minimum_inclusion extract_section "What is RAG?" 1
                         ten_candidates H))).
Defined.

End Rendering.

(** ** Further properties of the scoring *)

Section ScoringMore.

Lemma lower_app (a b : string) :
  PyStr.lower (a ++ b) = PyStr.lower a ++ PyStr.lower b.
Proof. induction a as [|c a IH]; simpl; [done | by rewrite IH]. Qed.

Lemma string_app_assoc (a b c : string) : (a ++ b) ++ c = a ++ (b ++ c).
Proof.
  induction a as [|x a IH]; [done|].
  change (String x ((a ++ b) ++ c) = String x (a ++ (b ++ c))). by rewrite IH.
Qed.

Lemma occurs_app_l (sub a b : string) :
  PyStr.occurs sub a → PyStr.occurs sub (a ++ b).
Proof.
  intros (pre & post & ->). exists pre, (post ++ b).
  rewrite string_app_assoc. f_equal. apply string_app_assoc.
Qed.

Lemma count_zero_contains (s sub : string) :
  PyStr.count s sub = 0 ↔ PyStr.contains sub s = false.
Proof.
  pose proof (count_pos_contains s sub) as H.
  pose proof (count_nonneg s sub) as Hn.
  destruct (PyStr.contains sub s); split; intros H0; try done.
  - assert (0 < PyStr.count s sub) by (by apply H). lia.
  - destruct (decide (0 < PyStr.count s sub)) as [Hp|Hp]; [|lia].
    apply H in Hp. done.
Qed.

Lemma sum_over_zero (f : string → Z) (l : list string) :
  (∀ x, 0 ≤ f x) → (sum_over f l = 0 ↔ ∀ x, x ∈ l → f x = 0).
Proof.
  intros Hf. induction l as [|a l IH]; simpl.
  - split; [|done]. intros _ x Hx. by apply elem_of_nil in Hx.
  - assert (Hs : 0 ≤ sum_over f l).
    { clear IH. induction l as [|b l IHl]; simpl; [lia|]. pose proof (Hf b). lia. }
    pose proof (Hf a). split.
    + intros H0 x Hx. apply elem_of_cons in Hx as [->|Hx]; [lia|].
      apply IH; [lia | done].
    + intros Hall. rewrite (Hall a) by left.
      assert (sum_over f l = 0) by (apply IH; intros x Hx; apply Hall; by right).
      lia.
Qed.

(** A term found in the title is found in the text that is counted. *)
Lemma title_in_text (n : note) (term : string) :
  PyStr.contains term (PyStr.lower (note_title n)) = true →
  PyStr.contains term (PyStr.lower (note_title n ++ NL ++ note_text n)) = true.
Proof.
  rewrite !contains_occurs, lower_app. apply occurs_app_l.
Qed.

Lemma term_score_zero (n : note) (term : string) :
  term_score n term = 0
  ↔ PyStr.contains term (PyStr.lower (note_title n ++ NL ++ note_text n)) = false
    ∧ PyStr.contains term (PyStr.lower (PyStr.join " " (note_tags n))) = false.
Proof.
  unfold term_score.
  pose proof (title_in_text n term) as Ht.
  pose proof (count_zero_contains
                (PyStr.lower (note_title n ++ NL ++ note_text n)) term) as Hc.
  pose proof (count_nonneg (PyStr.lower (note_title n ++ NL ++ note_text n)) term) as Hn.
  destruct (PyStr.contains term (PyStr.lower (note_title n))),
    (PyStr.contains term (PyStr.lower (PyStr.join " " (note_tags n))));
    split.
  all: try (intros H0; exfalso; lia).
  all: try (intros [H1 H2]; discriminate).
  - intros [H1 _]. specialize (Ht eq_refl). congruence.
  - intros H0. split; [apply Hc; lia | done].
  - intros [H1 _]. apply Hc in H1. lia.
Qed.

Lemma ascii_text_app (a b : string) :
  ascii_text a → ascii_text b → ascii_text (a ++ b).
Proof.
  unfold ascii_text. intros Ha Hb. induction a as [|c a IH]; [done|].
  change (Forall (fun c => is_ascii c = true) (c :: chars (a ++ b))).
  inversion Ha; subst. constructor; [done | by apply IH].
Qed.

Lemma ascii_text_join (sep : string) (l : list string) :
  ascii_text sep → Forall ascii_text l → ascii_text (PyStr.join sep l).
Proof.
  intros Hs Hl. induction Hl as [|x l Hx Hl IH]; [constructor|].
  destruct l as [|y l]; [done|].
  change (ascii_text (x ++ sep ++ PyStr.join sep (y :: l))).
  apply ascii_text_app; [done|]. by apply ascii_text_app.
Qed.

(** On an ASCII note the three strings the score looks at are lowercased
    letter by letter, whatever [lower] does elsewhere. *)
Lemma lower_ascii_note (lower : string → string)
    (Hlower : ∀ s, ascii_text s → lower s = PyStr.lower s) (n : note) :
  ascii_note n →
  lower (note_title n) = PyStr.lower (note_title n)
  ∧ lower (note_title n ++ NL ++ note_text n)
    = PyStr.lower (note_title n ++ NL ++ note_text n)
  ∧ lower (PyStr.join " " (note_tags n)) = PyStr.lower (PyStr.join " " (note_tags n)).
Proof.
  intros (Ht & Hx & Hg). split; [by apply Hlower|]. split; apply Hlower.
  - apply ascii_text_app; [done|]. apply ascii_text_app; [|done].
    unfold ascii_text, NL. repeat constructor.
  - apply ascii_text_join; [|done]. unfold ascii_text. repeat constructor.
Qed.

Lemma score_note_with_ascii (lower : string → string)
    (Hlower : ∀ s, ascii_text s → lower s = PyStr.lower s)
    (n : note) (terms : list string) :
  ascii_note n → score_note_with lower n terms = score_note n terms.
Proof.
  intros Hn. destruct (lower_ascii_note lower Hlower n Hn) as (H1 & H2 & H3).
  unfold score_note_with, score_note. by rewrite H1, H2, H3.
Qed.

(** X1: for a note whose title, body and tags are ASCII, and [str.lower]
    lowercasing ASCII text letter by letter, the score is 0 exactly when no
    query term occurs in the lowercased title, newline and body, nor in the
    lowercased space-joined tags. *)
Theorem score_note_zero_iff (lower : string → string)
    (Hlower : ∀ s, ascii_text s → lower s = PyStr.lower s)
    (n : note) (Hascii : ascii_note n) (terms : list string) :
  score_note_with lower n terms = 0
  ↔ ∀ term, term ∈ terms →
      ¬ PyStr.occurs term (lower (note_title n ++ NL ++ note_text n))
      ∧ ¬ PyStr.occurs term (lower (PyStr.join " " (note_tags n))).
Proof.
  rewrite (score_note_with_ascii lower Hlower n terms Hascii).
  destruct (lower_ascii_note lower Hlower n Hascii) as (_ & -> & ->).
  rewrite score_note_sum, (sum_over_zero _ _ (term_score_nonneg n)).
  split; intros H term Hin; specialize (H term Hin).
  - apply term_score_zero in H as [H1 H2]. rewrite <- !contains_occurs.
    rewrite H1, H2. done.
  - apply term_score_zero. rewrite <- !contains_occurs in H.
    destruct H as [H1 H2]. split; [by destruct (PyStr.contains _ _) in H1 |- *|
                                    by destruct (PyStr.contains _ _) in H2 |- *].
Qed.

Lemma score_note_zero_iff_witness :
  score_note_with PyStr.lower alignment_note ["zebra"] = 0
  ↔ ∀ term, term ∈ ["zebra"] →
      ¬ PyStr.occurs term
          (PyStr.lower (note_title alignment_note ++ NL ++ note_text alignment_note))
      ∧ ¬ PyStr.occurs term (PyStr.lower (PyStr.join " " (note_tags alignment_note))).
Proof.
  apply (score_note_zero_iff PyStr.lower (fun s _ => eq_refl) alignment_note).
  unfold ascii_note, ascii_text. vm_compute. repeat constructor.
Defined.

End ScoringMore.

Section ScoringTerms.

Lemma sum_over_app (f : string → Z) (l1 l2 : list string) :
  sum_over f (l1 ++ l2)%list = sum_over f l1 + sum_over f l2.
Proof. induction l1 as [|x l1 IH]; simpl; [lia | rewrite IH; lia]. Qed.

Lemma sum_over_perm (f : string → Z) (l1 l2 : list string) :
  l1 ≡ₚ l2 → sum_over f l1 = sum_over f l2.
Proof.
  induction 1 as [|x l1 l2 _ IH|x y l|l1 l2 l3 _ IH1 _ IH2]; simpl; lia.
Qed.

Lemma sum_over_elem_le (f : string → Z) (l : list string) (x : string) :
  (∀ y, 0 ≤ f y) → x ∈ l → f x ≤ sum_over f l.
Proof.
  intros Hf. induction l as [|a l IH]; intros Hx; [by apply elem_of_nil in Hx|].
  assert (Hs : 0 ≤ sum_over f l).
  { clear IH Hx. induction l as [|b l IHl]; simpl; [lia|]. pose proof (Hf b). lia. }
  simpl. apply elem_of_cons in Hx as [->|Hx]; [lia|].
  specialize (IH Hx). pose proof (Hf a). lia.
Qed.

(** X2: for a note whose title, body and tags are ASCII, and [str.lower]
    lowercasing ASCII text letter by letter, a query term found in the
    lowercased title is worth at least 4: the flat 3 of the title and at
    least one occurrence in the counted text, which starts with the title. *)
Theorem score_note_title_match (lower : string → string)
    (Hlower : ∀ s, ascii_text s → lower s = PyStr.lower s)
    (n : note) (Hascii : ascii_note n) (terms : list string) (term : string)
    (Hin : term ∈ terms)
    (Htitle : PyStr.occurs term (lower (note_title n))) :
  4 ≤ score_note_with lower n terms.
Proof.
  rewrite (score_note_with_ascii lower Hlower n terms Hascii).
  destruct (lower_ascii_note lower Hlower n Hascii) as (Hl & _ & _).
  rewrite Hl in Htitle. clear Hl.
  rewrite score_note_sum.
  etrans; [|apply (sum_over_elem_le _ _ term (term_score_nonneg n) Hin)].
  apply contains_occurs in Htitle. unfold term_score.
  pose proof (title_in_text n term Htitle) as Ht.
  apply count_pos_contains in Ht. rewrite Htitle.
  destruct (PyStr.contains term (PyStr.lower (PyStr.join " " (note_tags n)))); lia.
Qed.

Lemma score_note_title_match_witness :
  "research" ∈ ["hard"; "research"]
  ∧ 4 ≤ score_note alignment_note ["hard"; "research"].
Proof.
  assert (Hin : "research" ∈ ["hard"; "research"]) by (right; left).
  split; [exact Hin|].
  assert (Hascii : ascii_note alignment_note).
  { unfold ascii_note, ascii_text. vm_compute. repeat constructor. }
  apply (score_note_title_match PyStr.lower (fun s _ => eq_refl) alignment_note Hascii
           _ "research" Hin).
  exists "alignment ", "". reflexivity.
Defined.

(** X3: the score is additive over the list of query terms, so the order of
    the terms does not matter and a repeated term counts once per
    repetition. *)
Theorem score_note_additive (n : note) :
  (∀ t1 t2 : list string,
     score_note n (t1 ++ t2)%list = score_note n t1 + score_note n t2)
  ∧ (∀ t1 t2 : list string, t1 ≡ₚ t2 → score_note n t1 = score_note n t2)
  ∧ (∀ term : string, score_note n [term; term] = 2 * score_note n [term])
  ∧ score_note n [] = 0.
Proof.
  split; [|split; [|split]].
  - intros t1 t2. rewrite !score_note_sum. apply sum_over_app.
  - intros t1 t2 H. rewrite !score_note_sum. by apply sum_over_perm.
  - intros term. rewrite !score_note_sum. simpl. lia.
  - reflexivity.
Qed.

Lemma lower_ascii_not_upper (c : ascii) : is_upper (PyStr.lower_ascii c) = false.
Proof.
  destruct c as [[] [] [] [] [] [] [] []]; reflexivity.
Qed.

Lemma lower_no_upper (s : string) (c : ascii) :
  c ∈ chars (PyStr.lower s) → is_upper c = false.
Proof.
  induction s as [|a s IH]; simpl; intros Hc; [by apply elem_of_nil in Hc|].
  apply elem_of_cons in Hc as [->|Hc]; [apply lower_ascii_not_upper | by apply IH].
Qed.

Lemma chars_app (a b : string) : chars (a ++ b) = (chars a ++ chars b)%list.
Proof.
  induction a as [|x a IH]; [done|].
  change (x :: chars (a ++ b) = x :: (chars a ++ chars b)%list). by rewrite IH.
Qed.

Lemma occurs_chars (sub s : string) (c : ascii) :
  PyStr.occurs sub s → c ∈ chars sub → c ∈ chars s.
Proof.
  intros (pre & post & ->) Hc. rewrite !chars_app.
  apply elem_of_app. right. apply elem_of_app. by left.
Qed.

(** X4: the terms are compared as they are with lowercased text, so a query
    term that holds an ASCII capital letter matches nothing and adds nothing
    to the score. *)
Theorem score_note_upper_term (n : note) (terms : list string) (term : string)
    (c : ascii) (Hc : c ∈ chars term) (Hup : is_upper c = true) :
  score_note n (term :: terms) = score_note n terms.
Proof.
  assert (Hno : ∀ s, PyStr.contains term (PyStr.lower s) = false).
  { intros s. destruct (PyStr.contains term (PyStr.lower s)) eqn:E; [|done].
    apply contains_occurs in E.
    pose proof (lower_no_upper s c (occurs_chars _ _ c E Hc)). congruence. }
  rewrite !score_note_sum. simpl.
  assert (term_score n term = 0) as ->; [|lia].
  apply term_score_zero. split; apply Hno.
Qed.

Lemma score_note_upper_term_witness :
  score_note alignment_note ["Alignment"; "alignment"]
  = score_note alignment_note ["alignment"].
Proof.
  apply (score_note_upper_term alignment_note ["alignment"] "Alignment" "A").
  - left.
  - reflexivity.
Defined.

End ScoringTerms.

(** ** Further properties of the link expansion *)

Section ExpansionMore.

Lemma index_step_lookup (m : gmap string note) (n : note) (i : string) :
  index_step m n !! i
  = if decide (note_id n = Some i ∧ i ≠ "") then Some n else m !! i.
Proof.
  unfold index_step. destruct (note_id n) as [j|] eqn:Hj.
  - destruct (truthy (Some j)) eqn:Ht.
    + apply truthy_Some in Ht. rewrite lookup_insert.
      destruct (decide (j = i)) as [->|Hne].
      * rewrite decide_True; done.
      * rewrite decide_False; [done|]. intros [Heq _]. congruence.
    + rewrite decide_False; [done|]. intros [Heq Hne].
      injection Heq as ->. apply truthy_Some in Hne. congruence.
  - rewrite decide_False; [done|]. intros [Heq _]. discriminate.
Qed.

Lemma notes_by_id_snoc (l : list note) (n : note) :
  notes_by_id (l ++ [n]) = index_step (notes_by_id l) n.
Proof. unfold notes_by_id. by rewrite fold_left_app. Qed.

Lemma notes_by_id_Some (l : list note) (i : string) (n : note) :
  notes_by_id l !! i = Some n → n ∈ l ∧ note_id n = Some i ∧ i ≠ "".
Proof.
  induction l as [|a l IH] using rev_ind.
  - unfold notes_by_id. simpl. by rewrite lookup_empty.
  - rewrite notes_by_id_snoc, index_step_lookup.
    destruct (decide (note_id a = Some i ∧ i ≠ "")) as [[Hid Hne]|_].
    + intros [= <-]. split; [apply elem_of_app; right; left | done].
    + intros H. destruct (IH H) as (Hin & ? & ?).
      split; [apply elem_of_app; by left | done].
Qed.

Lemma notes_by_id_None (l : list note) (i : string) :
  notes_by_id l !! i = None ↔ ∀ n, n ∈ l → ¬ (note_id n = Some i ∧ i ≠ "").
Proof.
  induction l as [|a l IH] using rev_ind.
  - unfold notes_by_id. simpl. rewrite lookup_empty. split; [|done].
    intros _ n Hn. by apply elem_of_nil in Hn.
  - rewrite notes_by_id_snoc, index_step_lookup.
    destruct (decide (note_id a = Some i ∧ i ≠ "")) as [Ha|Ha].
    + split; [done|]. intros H. exfalso. apply (H a); [|done].
      apply elem_of_app. right. left.
    + rewrite IH. split.
      * intros H n Hn. apply elem_of_app in Hn as [Hn|Hn]; [by apply H|].
        apply list_elem_of_singleton in Hn as ->. done.
      * intros H n Hn. apply H. apply elem_of_app. by left.
Qed.

(** X5: the index built from the notes maps an id to the last note that
    carries it; notes without an id, or with an empty one, are not indexed,
    and an id no note carries is absent. *)
Theorem notes_by_id_last_wins (l1 l2 : list note) (n : note) (i : string)
    (Hid : note_id n = Some i) (Hne : i ≠ "")
    (Hlater : ∀ m, m ∈ l2 → note_id m ≠ Some i) :
  notes_by_id (l1 ++ n :: l2) !! i = Some n
  ∧ (∀ (l : list note) j m, notes_by_id l !! j = Some m →
       m ∈ l ∧ note_id m = Some j ∧ j ≠ "")
  ∧ (∀ (l : list note) j,
       notes_by_id l !! j = None ↔ ∀ m, m ∈ l → ¬ (note_id m = Some j ∧ j ≠ "")).
Proof.
  split; [|split; [apply notes_by_id_Some | apply notes_by_id_None]].
  induction l2 as [|a l2 IH] using rev_ind.
  - rewrite notes_by_id_snoc, index_step_lookup. by rewrite decide_True.
  - replace (l1 ++ n :: l2 ++ [a])%list with ((l1 ++ n :: l2) ++ [a])%list
      by (by rewrite <- app_assoc).
    rewrite notes_by_id_snoc, index_step_lookup.
    rewrite decide_False.
    + apply IH. intros m Hm. apply Hlater, elem_of_app. by left.
    + intros [Ha _]. apply (Hlater a); [|done]. apply elem_of_app. right. left.
Qed.

Lemma notes_by_id_last_wins_witness :
  notes_by_id ([mk_note (Some "a") "old" [] VNone]
               ++ mk_note (Some "a") "new" [] VNone :: [mk_note None "x" [] VNone])
    !! "a"
  = Some (mk_note (Some "a") "new" [] VNone).
Proof.
  refine (proj1 (notes_by_id_last_wins _ _ _ "a" _ _ _)).
  - reflexivity.
  - discriminate.
  - intros m Hm. apply list_elem_of_singleton in Hm as ->. discriminate.
Defined.

Lemma within_union (idx : gmap string note) (A B : gset string) (k : nat) (x : string) :
  within idx (A ∪ B) k x ↔ within idx A k x ∨ within idx B k x.
Proof.
  revert x. induction k as [|k IH]; intros x; simpl.
  - apply elem_of_union.
  - split.
    + intros (i & Hi & He). apply IH in Hi as [Hi|Hi]; [left | right]; eauto.
    + intros [(i & Hi & He)|(i & Hi & He)]; exists i; (split; [apply IH; tauto | done]).
Qed.

Lemma within_mono (idx : gmap string note) (A B : gset string) (k : nat) (x : string) :
  A ⊆ B → within idx A k x → within idx B k x.
Proof.
  intros HAB. revert x. induction k as [|k IH]; intros x; simpl.
  - apply HAB.
  - intros (i & Hi & He). exists i. split; [by apply IH | done].
Qed.

(** Distance [k] from the ids within [a] links of [E]. *)
Lemma within_within (idx : gmap string note) (E R : gset string) (a : nat) :
  (∀ x, x ∈ R ↔ ∃ j, (j ≤ a)%nat ∧ within idx E j x) →
  ∀ k x, within idx R k x ↔ ∃ j, (j ≤ a)%nat ∧ within idx E (j + k) x.
Proof.
  intros HR k. induction k as [|k IH]; intros x.
  - simpl. rewrite HR. split; intros (j & Hj & Hw); exists j.
    + by rewrite Nat.add_0_r.
    + by rewrite Nat.add_0_r in Hw.
  - change (within idx R (S k) x) with (∃ i, within idx R k i ∧ edge idx i x).
    split.
    + intros (i & Hi & He). apply IH in Hi as (j & Hj & Hw).
      exists j. split; [done|]. rewrite Nat.add_succ_r. simpl. eauto.
    + intros (j & Hj & Hw). rewrite Nat.add_succ_r in Hw. simpl in Hw.
      destruct Hw as (i & Hi & He). exists i. split; [|done].
      apply IH. eauto.
Qed.

Lemma expand_links_within (notes : list note) (seeds : gset string) (hops : Z) (x : string) :
  x ∈ expand_links notes seeds hops
  ↔ ∃ k, (k ≤ Z.to_nat hops)%nat ∧ within (notes_by_id notes) seeds k x.
Proof.
  rewrite expand_links_reach.
  split; intros (k & Hk & Hw); exists k; (split; [done | by apply reach_within]).
Qed.

Lemma expand_links_compose (notes : list note) (seeds : gset string) (a b : Z) :
  0 ≤ a → 0 ≤ b →
  expand_links notes (expand_links notes seeds a) b = expand_links notes seeds (a + b).
Proof.
  intros Ha Hb. apply set_eq. intros x. rewrite !expand_links_within.
  pose proof (within_within (notes_by_id notes) seeds (expand_links notes seeds a)
                (Z.to_nat a) (expand_links_within notes seeds a)) as Hww.
  split.
  - intros (k & Hk & Hw). apply Hww in Hw as (j & Hj & Hw).
    exists (j + k)%nat. split; [lia | done].
  - intros (m & Hm & Hw).
    destruct (decide (m ≤ Z.to_nat a)%nat) as [Hle|Hgt].
    + exists O. split; [lia|]. apply Hww. exists m. by rewrite Nat.add_0_r.
    + exists (m - Z.to_nat a)%nat. split; [lia|]. apply Hww.
      exists (Z.to_nat a). split; [lia|].
      replace (Z.to_nat a + (m - Z.to_nat a))%nat with m by lia. done.
Qed.

(** X6: expanding in two stages is expanding once with the hops added:
    [b] more hops from the result of [a] hops give the result of [a + b]
    hops. *)
Theorem expand_links_stages (notes : list note) (seeds : gset string) (a b : Z)
    (Ha : 0 ≤ a) (Hb : 0 ≤ b) :
  expand_links notes (expand_links notes seeds a) b = expand_links notes seeds (a + b).
Proof. by apply expand_links_compose. Qed.

Lemma expand_links_stages_witness :
  expand_links dead_link_notes (expand_links dead_link_notes {["a"]} 1) 2
  = expand_links dead_link_notes {["a"]} (1 + 2).
Proof. apply expand_links_stages; lia. Defined.

(** X7: the expansion of a union of seed sets is the union of the
    expansions, so it grows with the seed set, and no seeds give nothing. *)
Theorem expand_links_union (notes : list note) (A B : gset string) (hops : Z) :
  expand_links notes (A ∪ B) hops
  = expand_links notes A hops ∪ expand_links notes B hops
  ∧ (A ⊆ B → expand_links notes A hops ⊆ expand_links notes B hops)
  ∧ expand_links notes ∅ hops = ∅.
Proof.
  split; [|split].
  - apply set_eq. intros x. rewrite elem_of_union, !expand_links_within. split.
    + intros (k & Hk & Hw). apply within_union in Hw as [Hw|Hw]; [left | right]; eauto.
    + intros [(k & Hk & Hw)|(k & Hk & Hw)]; exists k;
        (split; [done | apply within_union; tauto]).
  - intros HAB x. rewrite !expand_links_within. intros (k & Hk & Hw).
    exists k. split; [done | by apply (within_mono _ A B)].
  - apply set_eq. intros x. rewrite expand_links_within. split.
    + intros (k & _ & Hw). exfalso. revert x Hw.
      induction k as [|k IH]; intros x; simpl.
      * apply not_elem_of_empty.
      * intros (i & Hi & _). by apply (IH i).
    + intros H. by apply not_elem_of_empty in H.
Qed.

End ExpansionMore.

Section ExpansionBounds.

(** X8: once one more hop adds nothing, no number of further hops adds
    anything: the expansion has reached its closure. *)
Theorem expand_links_saturates (notes : list note) (seeds : gset string) (h h' : Z)
    (Hh : 0 ≤ h) (Hle : h ≤ h')
    (Hfix : expand_links notes seeds (h + 1) = expand_links notes seeds h) :
  expand_links notes seeds h' = expand_links notes seeds h.
Proof.
  assert (Hk : ∀ k : nat,
            expand_links notes seeds (h + Z.of_nat k) = expand_links notes seeds h).
  { induction k as [|k IH].
    - by rewrite Z.add_0_r.
    - replace (h + Z.of_nat (S k)) with ((h + Z.of_nat k) + 1) by lia.
      rewrite <- expand_links_compose by lia. rewrite IH.
      rewrite expand_links_compose by lia. exact Hfix. }
  replace h' with (h + Z.of_nat (Z.to_nat (h' - h))) by lia. apply Hk.
Qed.

Lemma expand_links_saturates_witness :
  expand_links dead_link_notes {["a"]} 5 = expand_links dead_link_notes {["a"]} 1.
Proof.
  apply expand_links_saturates; [lia | lia |].
  vm_compute. reflexivity.
Defined.

(** X9: the result holds every seed, and whatever else it holds is the
    non-empty target of a link of some loaded note that has an id. *)
Theorem expand_links_contents (notes : list note) (seeds : gset string) (hops : Z) :
  seeds ⊆ expand_links notes seeds hops
  ∧ (∀ x, x ∈ expand_links notes seeds hops →
       x ∈ seeds
       ∨ (x ≠ "" ∧ ∃ n, n ∈ notes ∧ truthy (note_id n) = true
                       ∧ Link (Some x) ∈ note_links n)).
Proof.
  split.
  - intros x Hx. apply expand_links_within. exists O. split; [lia | done].
  - intros x Hx. apply expand_links_within in Hx as (k & _ & Hw).
    destruct k as [|k]; [by left|]. right.
    destruct Hw as (i & _ & n & Hn & Hl & Hne).
    split; [done|]. apply notes_by_id_Some in Hn as (Hin & Hid & Hi).
    exists n. split; [done|]. split; [|done].
    rewrite Hid. by apply truthy_Some.
Qed.

Lemma notes_by_id_filter (l : list note) :
  notes_by_id (List.filter (fun n => truthy (note_id n)) l) = notes_by_id l.
Proof.
  unfold notes_by_id. generalize (∅ : gmap string note).
  induction l as [|a l IH]; intros m; [done|].
  cbn [List.filter]. destruct (truthy (note_id a)) eqn:Ht; simpl.
  - apply IH.
  - rewrite IH. f_equal. unfold index_step.
    destruct (note_id a) as [i|]; [|done]. by rewrite Ht.
Qed.

(** X10: notes without an id take no part in link expansion: leaving them
    out of the note list changes neither the result nor the frontiers. *)
Theorem expand_links_ignores_unnamed (notes : list note) (seeds : gset string) (hops : Z) :
  expand_run (List.filter (fun n => truthy (note_id n)) notes) seeds hops
  = expand_run notes seeds hops
  ∧ expand_links (List.filter (fun n => truthy (note_id n)) notes) seeds hops
    = expand_links notes seeds hops.
Proof.
  unfold expand_links, expand_run. rewrite notes_by_id_filter. done.
Qed.

End ExpansionBounds.

(** ** Further properties of the recency filter *)

Section RecencyMore.

Lemma recent_loop_app (c : Z) (l1 l2 : list note) :
  recent_loop c (l1 ++ l2) = recent_loop c l1 ∪ recent_loop c l2.
Proof.
  apply set_eq. intros x. rewrite elem_of_union, !recent_loop_elem. split.
  - intros (n & us & Hn & H). apply elem_of_app in Hn as [Hn|Hn]; [left | right];
      exists n, us; done.
  - intros [(n & us & Hn & H)|(n & us & Hn & H)]; exists n, us;
      (split; [apply elem_of_app; tauto | done]).
Qed.

(** X11: a longer window never loses a note: with [days ≤ days'], the
    recency set for [days] is part of the one for [days']. *)
Theorem get_recent_notes_window (now : Z) (notes : list note) (days days' : Z)
    (s s' : gset string) (Hle : days ≤ days')
    (Hs : get_recent_notes now notes days = Ok s)
    (Hs' : get_recent_notes now notes days' = Ok s') :
  s ⊆ s'.
Proof.
  unfold get_recent_notes, PyDate.cutoff in *.
  destruct ((days <? -999999999) || (999999999 <? days)); [discriminate|].
  destruct ((days' <? -999999999) || (999999999 <? days')); [discriminate|].
  destruct ((now - days * PyDate.DAY_US <? 0)
            || (PyDate.MAX_US <? now - days * PyDate.DAY_US)); [discriminate|].
  destruct ((now - days' * PyDate.DAY_US <? 0)
            || (PyDate.MAX_US <? now - days' * PyDate.DAY_US)); [discriminate|].
  simpl in Hs, Hs'. injection Hs as <-. injection Hs' as <-.
  intros x. rewrite !recent_loop_elem.
  intros (n & us & Hn & Hr & Hc & Hid). exists n, us.
  split; [done|]. split; [done|]. split; [|done].
  unfold PyDate.DAY_US in *. lia.
Qed.

Lemma get_recent_notes_window_witness :
  get_recent_notes (PyDate.midnight 2026 11 4)
    [mk_note (Some "b") "B" [] (VStr "2026-11-01");
     mk_note (Some "c") "C" [] (VStr "2026-10-20")] 7 = Ok {["b"]}
  ∧ get_recent_notes (PyDate.midnight 2026 11 4)
      [mk_note (Some "b") "B" [] (VStr "2026-11-01");
       mk_note (Some "c") "C" [] (VStr "2026-10-20")] 30 = Ok {["b"; "c"]}
  ∧ ({["b"]} : gset string) ⊆ {["b"; "c"]}.
Proof.
  assert (H7 : get_recent_notes (PyDate.midnight 2026 11 4)
                 [mk_note (Some "b") "B" [] (VStr "2026-11-01");
                  mk_note (Some "c") "C" [] (VStr "2026-10-20")] 7 = Ok {["b"]})
    by (vm_compute; reflexivity).
  assert (H30 : get_recent_notes (PyDate.midnight 2026 11 4)
                  [mk_note (Some "b") "B" [] (VStr "2026-11-01");
                   mk_note (Some "c") "C" [] (VStr "2026-10-20")] 30
                = Ok {["b"; "c"]})
    by (vm_compute; reflexivity).
  split; [exact H7|]. split; [exact H30|].
  apply (get_recent_notes_window _ _ 7 30 _ _ ltac:(lia) H7 H30).
Defined.

(** X12: the recency set does not depend on the order in which the notes
    were loaded, and the set of two note lists put together is the union of
    their sets. *)
Theorem get_recent_notes_order (now : Z) (days : Z) :
  (∀ l l' : list note, l ≡ₚ l' →
     get_recent_notes now l days = get_recent_notes now l' days)
  ∧ (∀ (l1 l2 : list note) s1 s2,
       get_recent_notes now l1 days = Ok s1 →
       get_recent_notes now l2 days = Ok s2 →
       get_recent_notes now (l1 ++ l2) days = Ok (s1 ∪ s2)).
Proof.
  unfold get_recent_notes. destruct (PyDate.cutoff now days) as [c|e]; simpl.
  - split.
    + intros l l' Hp. f_equal. apply set_eq. intros x. rewrite !recent_loop_elem.
      split; intros (n & us & Hn & H); exists n, us; (split; [|done]).
      * by rewrite <- Hp.
      * by rewrite Hp.
    + intros l1 l2 s1 s2 [= <-] [= <-]. by rewrite recent_loop_app.
  - split; [done | intros; discriminate].
Qed.

End RecencyMore.

(** ** The date format *)

Section DateRoundTrip.

Import PyDate.

Lemma digit_char_spec (d : Z) :
  0 ≤ d ≤ 9 → is_digit (digit_char d) = true ∧ digit_val (digit_char d) = d.
Proof.
  intros Hd.
  assert (H : d = 0 ∨ d = 1 ∨ d = 2 ∨ d = 3 ∨ d = 4 ∨ d = 5 ∨ d = 6 ∨ d = 7
              ∨ d = 8 ∨ d = 9) by lia.
  repeat (destruct H as [->|H]; [split; reflexivity|]).
  subst d. split; reflexivity.
Qed.

(** The year group reads back the four digits of the year. *)
Lemma re_year_four_digits {A : Type} (y : Z) (rest : string)
    (k : Z → string → option A) :
  0 ≤ y ≤ 9999 → re_year (four_digits y ++ rest) k = k y rest.
Proof.
  intros Hy.
  assert (H1 : 0 ≤ y / 1000 ≤ 9).
  { pose proof (Z.div_mod y 1000 ltac:(lia)).
    pose proof (Z.mod_pos_bound y 1000 ltac:(lia)). lia. }
  assert (H2 : 0 ≤ y / 100 mod 10 ≤ 9) by (pose proof (Z.mod_pos_bound (y / 100) 10); lia).
  assert (H3 : 0 ≤ y mod 100 / 10 ≤ 9).
  { pose proof (Z.mod_pos_bound y 100 ltac:(lia)).
    pose proof (Z.div_mod (y mod 100) 10 ltac:(lia)).
    pose proof (Z.mod_pos_bound (y mod 100) 10 ltac:(lia)). lia. }
  assert (H4 : 0 ≤ y mod 100 mod 10 ≤ 9)
    by (pose proof (Z.mod_pos_bound (y mod 100) 10); lia).
  destruct (digit_char_spec _ H1) as [D1 V1], (digit_char_spec _ H2) as [D2 V2],
    (digit_char_spec _ H3) as [D3 V3], (digit_char_spec _ H4) as [D4 V4].
  change (four_digits y ++ rest)
    with (String (digit_char (y / 1000))
            (String (digit_char (y / 100 mod 10))
               (String (digit_char (y mod 100 / 10))
                  (String (digit_char (y mod 100 mod 10)) rest)))).
  unfold re_year. rewrite D1, D2, D3, D4, V1, V2, V3, V4. simpl.
  f_equal.
  pose proof (Z.div_mod y 1000 ltac:(lia)).
  pose proof (Z.div_mod y 100 ltac:(lia)).
  pose proof (Z.div_mod (y / 100) 10 ltac:(lia)).
  pose proof (Z.div_mod (y mod 100) 10 ltac:(lia)).
  assert (y / 100 / 10 = y / 1000) by (rewrite Z.div_div; [done | lia | lia]).
  lia.
Qed.

(** The rest of the pattern on every month and day in two digits. *)
Lemma match_month_day (y m d : Z) :
  1 ≤ m ≤ 12 → 1 ≤ d ≤ 31 →
  re_dash ("-" ++ two_digits m ++ "-" ++ two_digits d) (fun s2 =>
  re_month s2 (fun m' s3 =>
  re_dash s3 (fun s4 =>
  re_day s4 (fun d' rest => Some (y, m', d', rest)))))
  = Some (y, m, d, "").
Proof.
  intros Hm Hd.
  assert (Em : m = 1 ∨ m = 2 ∨ m = 3 ∨ m = 4 ∨ m = 5 ∨ m = 6 ∨ m = 7 ∨ m = 8
               ∨ m = 9 ∨ m = 10 ∨ m = 11 ∨ m = 12) by lia.
  assert (Ed : d = 1 ∨ d = 2 ∨ d = 3 ∨ d = 4 ∨ d = 5 ∨ d = 6 ∨ d = 7 ∨ d = 8
               ∨ d = 9 ∨ d = 10 ∨ d = 11 ∨ d = 12 ∨ d = 13 ∨ d = 14 ∨ d = 15
               ∨ d = 16 ∨ d = 17 ∨ d = 18 ∨ d = 19 ∨ d = 20 ∨ d = 21 ∨ d = 22
               ∨ d = 23 ∨ d = 24 ∨ d = 25 ∨ d = 26 ∨ d = 27 ∨ d = 28 ∨ d = 29
               ∨ d = 30 ∨ d = 31) by lia.
  clear Hm Hd.
  repeat (destruct Em as [->|Em]);
    try subst m;
    repeat (destruct Ed as [->|Ed]);
    try subst d;
    vm_compute; reflexivity.
Qed.

Lemma days_in_month_le (y m : Z) : days_in_month y m ≤ 31.
Proof.
  unfold days_in_month.
  repeat match goal with |- context [if ?b then _ else _] => destruct b end; lia.
Qed.

(** X14: a day written as [%Y-%m-%d] is read back by [strptime] as the
    midnight of that day, for every calendar day from the year 1000 on. *)
Theorem strptime_strftime (y m d : Z) (Hv : valid_date y m d = true)
    (Hy : 1000 ≤ y) :
  strptime (strftime_ymd y m d) = Ok (midnight y m d).
Proof.
  pose proof Hv as Hv'. unfold valid_date, MINYEAR, MAXYEAR in Hv'.
  repeat (apply andb_true_iff in Hv' as [Hv' ?]).
  repeat match goal with H : (_ <=? _) = true |- _ => apply Z.leb_le in H end.
  pose proof (days_in_month_le y m).
  unfold strptime, match_ymd, strftime_ymd.
  rewrite re_year_four_digits by lia.
  rewrite match_month_day by lia. by rewrite Hv.
Qed.

Lemma strptime_strftime_witness :
  strptime (strftime_ymd 2026 11 4) = Ok (midnight 2026 11 4).
Proof. apply strptime_strftime; [reflexivity | lia]. Defined.

End DateRoundTrip.

(** ** Further properties of the keyword step and of the ranking *)

Section KeywordMore.

Lemma slice_to_elem {A : Type} (l : list A) (k : Z) (x : A) :
  x ∈ slice_to l k → x ∈ l.
Proof.
  unfold slice_to. destruct (0 <=? k); intros H;
    apply elem_of_take in H as (i & Hi & _); by apply list_elem_of_lookup_2 in Hi.
Qed.

Lemma scored_elem (notes : list note) (terms : list string) (p : note * Z) :
  p ∈ sort_desc (score_all notes terms)
  ↔ fst p ∈ notes ∧ snd p = score_note (fst p) terms.
Proof.
  rewrite sort_desc_perm. unfold score_all. rewrite list_elem_of_fmap. split.
  - intros (n & -> & Hn). done.
  - intros [Hn Hs]. exists (fst p). split; [|done].
    destruct p as [n sc]. simpl in *. by rewrite Hs.
Qed.

(** X15: whatever [topk] is, an id the keyword step contributes is the
    non-empty id of a loaded note whose score for the query is strictly
    positive: a note that matches nothing is never added for its keywords. *)
Theorem keyword_ids_positive (notes : list note) (terms : list string) (topk : Z)
    (i : string) (Hi : i ∈ keyword_ids notes terms topk) :
  ∃ n, n ∈ notes ∧ note_id n = Some i ∧ i ≠ "" ∧ 0 < score_note n terms.
Proof.
  unfold keyword_ids, add_keyword_ids in Hi. apply keyword_fold_elem in Hi.
  destruct Hi as [Hi|([n sc] & Hp & Hok & Hid)]; [by apply not_elem_of_empty in Hi|].
  apply slice_to_elem, scored_elem in Hp as [Hn Hs]. simpl in *.
  destruct (proj1 (keyword_ok_spec n sc i) (conj Hok Hid)) as (_ & Hne & Hpos).
  exists n. rewrite <- Hs. done.
Qed.

Lemma keyword_ids_positive_witness :
  ∃ n, n ∈ [alignment_note] ∧ note_id n = Some "topic.alignment"
       ∧ "topic.alignment" ≠ "" ∧ 0 < score_note n ["alignment"].
Proof.
  apply (keyword_ids_positive [alignment_note] ["alignment"] 1).
  replace (keyword_ids [alignment_note] ["alignment"] 1)
    with ({["topic.alignment"]} : gset string) by (vm_compute; reflexivity).
  by apply elem_of_singleton.
Defined.

Lemma sort_desc_length (l : list (note * Z)) : length (sort_desc l) = length l.
Proof. apply Permutation_length, sort_desc_perm. Qed.

Lemma score_all_length (notes : list note) (terms : list string) :
  length (score_all notes terms) = length notes.
Proof. unfold score_all. apply length_map. Qed.

Lemma keyword_ids_take (notes : list note) (terms : list string) (topk : Z) (i : string) :
  0 ≤ topk →
  i ∈ keyword_ids notes terms topk
  ↔ ∃ p, p ∈ take (Z.to_nat topk) (sort_desc (score_all notes terms))
         ∧ keyword_ok p = true ∧ note_id (fst p) = Some i.
Proof.
  intros Hk. unfold keyword_ids, add_keyword_ids. rewrite keyword_fold_elem.
  unfold slice_to. destruct (0 <=? topk) eqn:E; [|apply Z.leb_gt in E; lia].
  split; [|tauto]. intros [H|H]; [by apply not_elem_of_empty in H | done].
Qed.

(** X16: for non-negative [topk] the contribution grows with [topk], and
    once [topk] reaches the number of notes it is the set of ids of all the
    notes that have an id and a strictly positive score. *)
Theorem keyword_ids_grows (notes : list note) (terms : list string) (topk topk' : Z)
    (H0 : 0 ≤ topk) (Hle : topk ≤ topk') :
  keyword_ids notes terms topk ⊆ keyword_ids notes terms topk'
  ∧ (Z.of_nat (length notes) ≤ topk →
     ∀ i, i ∈ keyword_ids notes terms topk
          ↔ ∃ n, n ∈ notes ∧ note_id n = Some i ∧ i ≠ "" ∧ 0 < score_note n terms).
Proof.
  split.
  - intros i. rewrite !keyword_ids_take by lia.
    intros (p & Hp & H). exists p. split; [|done].
    apply elem_of_take in Hp as (j & Hj & Hlt).
    apply elem_of_take. exists j. split; [done | lia].
  - intros Hlen i. split; [apply keyword_ids_positive|].
    intros (n & Hn & Hid & Hne & Hpos). apply keyword_ids_take; [lia|].
    exists (n, score_note n terms). split.
    + rewrite take_ge.
      * apply scored_elem. done.
      * rewrite sort_desc_length, score_all_length. lia.
    + apply keyword_ok_spec. done.
Qed.

Lemma keyword_ids_grows_witness :
  keyword_ids topk_notes ["alpha"] 1 ⊆ keyword_ids topk_notes ["alpha"] 2.
Proof.
  assert (H0 : 0 ≤ 1) by lia. assert (Hle : 1 ≤ 2) by lia.
  exact (proj1 (keyword_ids_grows topk_notes ["alpha"] 1 2 H0 Hle)).
Defined.

(** X17: a negative [topk] does not select nothing: the slice [scored[:topk]]
    then drops the last [-topk] pairs, so the step behaves as with
    [max(0, len(notes) + topk)]. *)
Theorem keyword_ids_negative_topk (notes : list note) (terms : list string) (topk : Z)
    (Hneg : topk < 0) :
  keyword_ids notes terms topk
  = keyword_ids notes terms (Z.max 0 (Z.of_nat (length notes) + topk)).
Proof.
  unfold keyword_ids, add_keyword_ids, slice_to.
  destruct (0 <=? topk) eqn:E1; [apply Z.leb_le in E1; lia|].
  destruct (0 <=? Z.max 0 (Z.of_nat (length notes) + topk)) eqn:E2;
    [|apply Z.leb_gt in E2; lia].
  rewrite sort_desc_length, score_all_length.
  replace (Z.to_nat (Z.max 0 (Z.of_nat (length notes) + topk)))
    with (length notes - Z.to_nat (- topk))%nat by lia.
  done.
Qed.

Lemma keyword_ids_negative_topk_witness :
  keyword_ids topk_notes ["alpha"] (-1) = keyword_ids topk_notes ["alpha"] 1.
Proof.
  assert (H : -1 < 0) by lia.
  exact (keyword_ids_negative_topk topk_notes ["alpha"] (-1) H).
Defined.

(** X18: the ranking is a stable sort: among the pairs with one and the same
    score, the order of the input list is kept. *)
Theorem sort_desc_keeps_ties (l : list (note * Z)) (v : Z) :
  List.filter (fun p => snd p =? v) (sort_desc l)
  = List.filter (fun p => snd p =? v) l.
Proof. apply sort_desc_stable. Qed.

End KeywordMore.

Section Assembly.

Lemma keyword_fold_union (l : list (note * Z)) (acc : gset string) :
  fold_left keyword_step l acc = acc ∪ fold_left keyword_step l ∅.
Proof.
  apply set_eq. intros x. rewrite elem_of_union, !keyword_fold_elem. split.
  - intros [?|?]; [by left|]. right. by right.
  - intros [?|[H|?]]; [by left | by apply not_elem_of_empty in H | by right].
Qed.

(** X19: the candidate set is the union of the three sources: the link
    expansion of the seeds (nothing when no seed was given), the recency set
    and the keyword contribution; when the recency filter fails, so does the
    assembly, with the same error. *)
Theorem candidate_ids_union (now : Z) (notes : list note) (terms : list string)
    (seed_ids : option (list string)) (hops recent_days topk : Z) :
  candidate_ids now notes terms seed_ids hops recent_days topk
  = match get_recent_notes now notes recent_days with
    | Ok recent =>
        Ok ((match seed_ids with
             | None | Some [] => ∅
             | Some seeds => expand_links notes (list_to_set seeds) hops
             end) ∪ recent ∪ keyword_ids notes terms topk)
    | Raise e => Raise e
    end.
Proof.
  unfold candidate_ids, keyword_ids, add_keyword_ids.
  destruct (get_recent_notes now notes recent_days) as [recent|e]; simpl; [|done].
  f_equal. rewrite keyword_fold_union.
  destruct seed_ids as [[|s l]|]; by rewrite ?(left_id_L ∅ (∪)).
Qed.

(** X20: the ranked candidate list is in descending score order; each
    entry is a loaded note, found in the index under one of the candidate
    ids, paired with its own score; candidate ids that resolve to no note
    are dropped, so the list is never longer than the list of ids. *)
Theorem rank_candidates_sound (notes : list note) (terms : list string)
    (order : list string) :
  StronglySorted desc (rank_candidates notes terms order)
  ∧ (∀ n sc, (n, sc) ∈ rank_candidates notes terms order
             ↔ sc = score_note n terms
               ∧ ∃ i, i ∈ order ∧ notes_by_id notes !! i = Some n)
  ∧ (∀ n sc, (n, sc) ∈ rank_candidates notes terms order →
             n ∈ notes ∧ truthy (note_id n) = true)
  ∧ (length (rank_candidates notes terms order) ≤ length order)%nat.
Proof.
  unfold rank_candidates.
  assert (Hmem : ∀ n sc,
            (n, sc) ∈ sort_desc
              (score_all (omap (fun nid => notes_by_id notes !! nid) order) terms)
            ↔ sc = score_note n terms
              ∧ ∃ i, i ∈ order ∧ notes_by_id notes !! i = Some n).
  { intros n sc. rewrite scored_elem. simpl. rewrite list_elem_of_omap. tauto. }
  split; [apply sort_desc_sorted|]. split; [exact Hmem|]. split.
  - intros n sc H. apply Hmem in H as (_ & i & _ & Hi).
    apply notes_by_id_Some in Hi as (Hin & Hid & Hne).
    split; [done|]. rewrite Hid. by apply truthy_Some.
  - rewrite sort_desc_length, score_all_length.
    clear Hmem. induction order as [|i order IH]; [simpl; lia|].
    cbn [omap list_omap]. destruct (notes_by_id notes !! i); cbn [length]; lia.
Qed.

End Assembly.

(** ** Further properties of the rendering loop *)

Section RenderingMore.

Import Render.

Lemma sum_est_take_S (extract : string → string → string)
    (l : list (note * Z)) (j : nat) (n : note) (sc : Z) :
  l !! j = Some (n, sc) →
  sum_est extract (take (S j) l) = sum_est extract (take j l) + est_tokens extract n.
Proof.
  revert j. induction l as [|p l IH]; intros j Hj; [by rewrite lookup_nil in Hj|].
  destruct j as [|j].
  - simpl in Hj. injection Hj as ->. simpl. lia.
  - simpl in Hj. change (take (S (S j)) (p :: l)) with (p :: take (S j) l).
    change (take (S j) (p :: l)) with (p :: take j l).
    simpl. rewrite (IH j Hj). lia.
Qed.

Lemma sum_est_nonneg (extract : string → string → string) (l : list (note * Z)) :
  0 ≤ sum_est extract l.
Proof. pose proof (sum_est_lower extract l). lia. Qed.

Lemma sum_est_take_le (extract : string → string → string)
    (l : list (note * Z)) (k : nat) :
  sum_est extract (take k l) ≤ sum_est extract l.
Proof.
  revert k. induction l as [|p l IH]; intros k; [by rewrite take_nil|].
  destruct k as [|k]; simpl.
  - pose proof (sum_est_nonneg extract l). pose proof (est_tokens_lower extract (fst p)). lia.
  - specialize (IH k). lia.
Qed.

(** X21: the budget holds whenever more than the four guaranteed notes were
    included: with [included > 4], the running total of the estimates (each
    the number of characters of a block divided by 4) is at most
    [max_tokens], for whatever [extract_section] returns. *)
Theorem render_within_budget (extract : string → string → string)
    (question : string) (max_tokens : Z)
    (cands : list (note * Z))
    (Hmore : 4 < included (render extract question max_tokens cands)) :
  total_tokens (render extract question max_tokens cands) ≤ max_tokens.
Proof.
  unfold render in *.
  destruct (render_loop_spec extract max_tokens cands
              {| output_lines := preamble question; total_tokens := 0; included := 0 |})
    as (k & Hk & Hrun & _ & Hbefore).
  rewrite Hrun in *. simpl in *.
  destruct k as [|k]; [lia|].
  destruct (lookup_lt_is_Some_2 cands k) as [[n sc] Hnk]; [lia|].
  rewrite (sum_est_take_S extract cands k n sc Hnk).
  destruct (Hbefore k n sc) as [H|H]; [lia | done | lia | lia].
Qed.

Lemma render_within_budget_witness :
  total_tokens (render extract_section "What is RAG?" 400 ten_candidates) ≤ 400.
Proof.
  apply render_within_budget. vm_compute. reflexivity.
Defined.

(** X22: when the estimated tokens of all candidates together fit the
    budget, or when there are at most four candidates, every candidate is
    included, in ranked order; an estimate is the number of characters of
    the block divided by 4, for whatever [extract_section] returns. *)
Theorem render_includes_all (extract : string → string → string)
    (question : string) (max_tokens : Z)
    (cands : list (note * Z))
    (Hfit : sum_est extract cands ≤ max_tokens ∨ (length cands ≤ 4)%nat) :
  output_lines (render extract question max_tokens cands)
  = (preamble question ++ map (fun p => section_text extract (fst p)) cands)%list
  ∧ included (render extract question max_tokens cands) = Z.of_nat (length cands)
  ∧ total_tokens (render extract question max_tokens cands) = sum_est extract cands.
Proof.
  unfold render.
  destruct (render_loop_spec extract max_tokens cands
              {| output_lines := preamble question; total_tokens := 0; included := 0 |})
    as (k & Hk & Hrun & Hstop & _).
  rewrite Hrun. simpl in *.
  assert (k = length cands) as ->.
  { destruct (decide (k = length cands)) as [?|Hne]; [done|]. exfalso.
    destruct (lookup_lt_is_Some_2 cands k) as [[n sc] Hnk]; [lia|].
    destruct (Hstop n sc Hnk) as [H1 H2].
    destruct Hfit as [Hfit|Hfit]; [|lia].
    pose proof (sum_est_take_S extract cands k n sc Hnk).
    pose proof (sum_est_take_le extract cands (S k)). lia. }
  unfold blocks. rewrite take_ge by lia. done.
Qed.

Lemma render_includes_all_witness :
  included (render extract_section "What is RAG?" 400 ten_candidates) = 10.
Proof.
  assert (H : sum_est extract_section ten_candidates ≤ 400
              ∨ (length ten_candidates ≤ 4)%nat).
  { left. vm_compute. discriminate. }
  exact (proj1 (proj2 (render_includes_all extract_section "What is RAG?" 400
                         ten_candidates H))).
Defined.

End RenderingMore.

(** ** Section extraction *)

Section Extraction.

Import Render.

Lemma search_unfold (head s : string) (bol : bool) :
  search head s bol
  = match (if bol && PyStr.startswith head s
           then after_blank (drop (String.length head) s) None
           else None) with
    | Some body => Some (capture body)
    | None =>
        match s with
        | EmptyString => None
        | String c s' => search head s' (Ascii.eqb c (ascii_of_nat 10))
        end
    end.
Proof. destruct s; reflexivity. Qed.

Lemma search_absent (head s : string) (bol : bool) :
  PyStr.contains head s = false → search head s bol = None.
Proof.
  revert bol. induction s as [|c s IH]; intros bol Hc.
  - simpl in Hc. rewrite search_unfold.
    destruct (PyStr.startswith head "") eqn:E; [discriminate|].
    by rewrite andb_false_r.
  - cbn [PyStr.contains] in Hc. rewrite search_unfold.
    destruct (PyStr.startswith head (String c s)) eqn:E; [discriminate|].
    rewrite andb_false_r. by apply IH.
Qed.

(** X23: when the text nowhere holds the header [## H], the extraction gives
    the empty string. *)
Theorem extract_section_absent (text header : string)
    (Habs : ¬ PyStr.occurs ("## " ++ header) text) :
  extract_section text header = "".
Proof.
  unfold extract_section. rewrite search_absent; [done|].
  destruct (PyStr.contains ("## " ++ header) text) eqn:E; [|done].
  apply contains_occurs in E. done.
Qed.

Lemma extract_section_absent_witness :
  extract_section ("# Title" ++ NL ++ "## Key Points" ++ NL ++ "- a") "Summary" = "".
Proof.
  apply extract_section_absent. rewrite <- contains_occurs.
  vm_compute. discriminate.
Defined.

End Extraction.

Section ExtractionRoundTrip.

Import Render.

Lemma startswith_self (p s : string) : PyStr.startswith p (p ++ s) = true.
Proof. apply startswith_app. by exists s. Qed.

Lemma drop_length_app (p s : string) : drop (String.length p) (p ++ s) = s.
Proof.
  induction p as [|c p IH]; [by destruct s|].
  change (drop (S (String.length p)) (String c (p ++ s)) = s). simpl. exact IH.
Qed.

(** A match that starts inside [t] either lies in [t] or runs over its end. *)
Lemma startswith_split (head t X : string) :
  PyStr.startswith head (t ++ X) = true →
  PyStr.startswith head t = true ∨ ∃ u, head = t ++ u.
Proof.
  revert t. induction head as [|a head IH]; intros t H; [by left|].
  destruct t as [|b t]; [right; by exists (String a head)|].
  change (PyStr.startswith (String a head) (String b (t ++ X)) = true) in H.
  simpl in H. simpl. destruct (Ascii.eqb a b) eqn:E; [|discriminate].
  apply Ascii.eqb_eq in E as ->.
  destruct (IH t H) as [?|[u ->]]; [by left|]. right. by exists u.
Qed.

Lemma search_skip (head X : string) :
  NLc ∉ chars head →
  ∀ (pre : string) (bol : bool),
    PyStr.contains head pre = false →
    (pre = "" ∨ ∃ p0, pre = p0 ++ NL) →
    search head (pre ++ X) bol = search head X (if String.eqb pre "" then bol else true).
Proof.
  intros Hh pre. induction pre as [|c pre IH]; intros bol Hc Hend; [done|].
  destruct Hend as [?|[p0 Hp0]]; [discriminate|].
  cbn [PyStr.contains] in Hc.
  destruct (PyStr.startswith head (String c pre)) eqn:Es; [discriminate|].
  change (String c pre ++ X) with (String c (pre ++ X)).
  rewrite search_unfold.
  assert (Hs : PyStr.startswith head (String c (pre ++ X)) = false).
  { destruct (PyStr.startswith head (String c (pre ++ X))) eqn:E; [|done].
    exfalso. apply (startswith_split head (String c pre) X) in E as [E|[u Hu]].
    - congruence.
    - apply Hh. rewrite Hu, Hp0, !chars_app.
      apply elem_of_app. left. apply elem_of_app. right. left. }
  rewrite Hs, andb_false_r.
  change (String.eqb (String c pre) "") with false. cbv iota.
  destruct pre as [|c' pre'].
  - destruct p0 as [|x p0]; [|destruct p0; discriminate].
    injection Hp0 as ->. reflexivity.
  - rewrite IH; [done | done |]. right.
    destruct p0 as [|x p0]; [discriminate|].
    exists p0. by injection Hp0.
Qed.

Lemma after_blank_run (ws body Y : string) (best : option string) :
  all_space ws = true →
  (∃ c b, body = String c b ∧ is_space c = false) →
  after_blank (ws ++ NL ++ body ++ Y) best = Some (body ++ Y).
Proof.
  intros Hws (c & b & -> & Hc). revert best.
  induction ws as [|w ws IH]; intros best.
  - change (after_blank (String (ascii_of_nat 10) (String c (b ++ Y))) best
            = Some (String c (b ++ Y))).
    simpl. by rewrite Hc.
  - unfold all_space in Hws. simpl in Hws. apply andb_true_iff in Hws as [Hw Hws].
    change (after_blank (String w (ws ++ NL ++ String c b ++ Y)) best
            = Some (String c b ++ Y)).
    cbn [after_blank]. rewrite Hw. by apply IH.
Qed.

Lemma capture_unfold (s : string) :
  capture s
  = if PyStr.startswith (NL ++ "## ") s then ""
    else match s with
         | EmptyString => EmptyString
         | String c s' => String c (capture s')
         end.
Proof. destruct s; reflexivity. Qed.

Lemma capture_app (X Y : string) :
  no_header_from X Y → capture (X ++ Y) = X ++ capture Y.
Proof.
  induction X as [|c X IH]; intros H; [done|].
  destruct H as [H1 H2]. rewrite capture_unfold, H1.
  change (String c X ++ Y) with (String c (X ++ Y)). cbv iota.
  change (String c X ++ capture Y) with (String c (X ++ capture Y)).
  by rewrite IH.
Qed.

Lemma no_header_app (A B Y : string) :
  no_header_from A (B ++ Y) → no_header_from B Y → no_header_from (A ++ B) Y.
Proof.
  intros HA HB. induction A as [|c A IH]; [done|].
  destruct HA as [H1 H2].
  change (String c A ++ B) with (String c (A ++ B)). split.
  - change (String c (A ++ B) ++ Y) with (String c ((A ++ B) ++ Y)).
    rewrite string_app_assoc. exact H1.
  - by apply IH.
Qed.

Lemma hash_not_space (z : ascii) :
  Ascii.eqb "#" z = true → is_space z = true → False.
Proof.
  intros E H. apply Ascii.eqb_eq in E. subst z. vm_compute in H. discriminate.
Qed.

Lemma header_straddle (t Z : string) :
  t ≠ "" → starts_blank Z →
  PyStr.startswith (NL ++ "##") t = false →
  PyStr.startswith (NL ++ "## ") (t ++ Z) = false.
Proof.
  intros Ht HZ H.
  change (NL ++ "##") with (String (ascii_of_nat 10) "##") in H.
  change (NL ++ "## ") with (String (ascii_of_nat 10) "## ").
  destruct t as [|c1 [|c2 [|c3 t]]]; [done| | |].
  - change (String c1 "" ++ Z) with (String c1 Z).
    cbn [PyStr.startswith]. destruct (Ascii.eqb (ascii_of_nat 10) c1); [|done].
    destruct Z as [|z Z]; [done|]. cbn [PyStr.startswith].
    destruct (Ascii.eqb "#" z) eqn:E; [|done].
    exfalso. by apply (hash_not_space z).
  - change (String c1 (String c2 "") ++ Z) with (String c1 (String c2 Z)).
    cbn [PyStr.startswith]. destruct (Ascii.eqb (ascii_of_nat 10) c1); [|done].
    destruct (Ascii.eqb "#" c2); [|done].
    destruct Z as [|z Z]; [done|]. cbn [PyStr.startswith].
    destruct (Ascii.eqb "#" z) eqn:E; [|done].
    exfalso. by apply (hash_not_space z).
  - change (String c1 (String c2 (String c3 t)) ++ Z)
      with (String c1 (String c2 (String c3 (t ++ Z)))).
    cbn [PyStr.startswith] in *.
    destruct (Ascii.eqb (ascii_of_nat 10) c1); [|done].
    destruct (Ascii.eqb "#" c2); [|done].
    destruct (Ascii.eqb "#" c3); [discriminate | done].
Qed.

Lemma no_header_body (body Z : string) :
  PyStr.contains (NL ++ "##") body = false → starts_blank Z →
  no_header_from body Z.
Proof.
  intros Hc HZ. induction body as [|c b IH]; [done|].
  cbn [PyStr.contains] in Hc.
  destruct (PyStr.startswith (NL ++ "##") (String c b)) eqn:E; [discriminate|].
  split; [by apply header_straddle | by apply IH].
Qed.

Lemma no_header_blank (ws Y : string) :
  all_space ws = true → (Y = "" ∨ ∃ r, Y = NL ++ r) → no_header_from ws Y.
Proof.
  intros Hws HY. induction ws as [|w ws IH]; [done|].
  unfold all_space in Hws. simpl in Hws. apply andb_true_iff in Hws as [Hw Hws].
  split; [|by apply IH].
  change (NL ++ "## ") with (String (ascii_of_nat 10) "## ").
  change (String w ws ++ Y) with (String w (ws ++ Y)).
  cbn [PyStr.startswith]. destruct (Ascii.eqb (ascii_of_nat 10) w); [|done].
  destruct ws as [|w' ws'].
  - change ("" ++ Y) with Y. destruct HY as [->|[r ->]]; [done|].
    change (NL ++ r) with (String (ascii_of_nat 10) r). done.
  - change (String w' ws' ++ Y) with (String w' (ws' ++ Y)).
    cbn [PyStr.startswith]. destruct (Ascii.eqb "#" w') eqn:E; [|done].
    exfalso. unfold all_space in Hws. simpl in Hws.
    apply andb_true_iff in Hws as [Hw' _]. by apply (hash_not_space w').
Qed.

Lemma starts_blank_app (ws Y : string) :
  all_space ws = true → (Y = "" ∨ ∃ r, Y = NL ++ r) → starts_blank (ws ++ Y).
Proof.
  intros Hws HY. destruct ws as [|w ws].
  - change ("" ++ Y) with Y. destruct HY as [->|[r ->]]; [done|]. reflexivity.
  - unfold all_space in Hws. simpl in Hws. apply andb_true_iff in Hws as [Hw _].
    exact Hw.
Qed.

Lemma rstrip_unfold (c : ascii) (s : string) :
  rstrip (String c s)
  = match rstrip s with
    | EmptyString => if is_space c then EmptyString else String c EmptyString
    | r => String c r
    end.
Proof. reflexivity. Qed.

Lemma rstrip_blank (ws : string) : all_space ws = true → rstrip ws = "".
Proof.
  induction ws as [|w ws IH]; intros H; [done|].
  unfold all_space in H. simpl in H. apply andb_true_iff in H as [Hw Hws].
  rewrite rstrip_unfold, (IH Hws), Hw. done.
Qed.

Lemma rstrip_app_blank (X ws : string) :
  all_space ws = true → rstrip (X ++ ws) = rstrip X.
Proof.
  intros H. induction X as [|c X IH]; [by apply rstrip_blank|].
  change (String c X ++ ws) with (String c (X ++ ws)).
  by rewrite !rstrip_unfold, IH.
Qed.

Lemma lstrip_length (s : string) : (String.length (lstrip s) ≤ String.length s)%nat.
Proof.
  induction s as [|c s IH]; simpl; [lia|].
  destruct (is_space c); simpl; lia.
Qed.

Lemma lstrip_fixed (body : string) :
  body ≠ "" → lstrip body = body →
  ∃ c b, body = String c b ∧ is_space c = false.
Proof.
  intros Hne H. destruct body as [|c b]; [done|].
  exists c, b. split; [done|]. simpl in H.
  destruct (is_space c); [|done].
  pose proof (lstrip_length b) as Hl. rewrite H in Hl. simpl in Hl. lia.
Qed.

(** X24: in an ASCII text, a section written as a header line [## H],
    optional blank lines, a body, optional blank space and then the next
    header line (or the end of the text) is read back as the body, provided
    the body has no leading or trailing white space and no line starting
    with [##], and no earlier line of the text starts with the header. *)
Theorem extract_section_roundtrip (pre h ws1 body ws2 tail : string)
    (Hascii : ascii_text (pre ++ "## " ++ h ++ ws1 ++ NL ++ body ++ ws2 ++ tail))
    (Hh : NLc ∉ chars h)
    (Hpre : PyStr.contains ("## " ++ h) pre = false)
    (Hline : pre = "" ∨ ∃ p0, pre = p0 ++ NL)
    (Hws1 : all_space ws1 = true) (Hws2 : all_space ws2 = true)
    (Hbody : body ≠ "") (Hl : lstrip body = body) (Hr : rstrip body = body)
    (Hno : PyStr.contains (NL ++ "##") body = false)
    (Htail : tail = "" ∨ ∃ rest, tail = NL ++ "## " ++ rest) :
  extract_section (pre ++ "## " ++ h ++ ws1 ++ NL ++ body ++ ws2 ++ tail) h = body.
Proof.
  assert (Hhead : NLc ∉ chars ("## " ++ h)).
  { change (chars ("## " ++ h)) with ("#" :: "#" :: " " :: chars h)%char.
    intros Hin. repeat (apply elem_of_cons in Hin as [Hin|Hin]; [discriminate|]).
    done. }
  assert (Htail' : tail = "" ∨ ∃ r, tail = NL ++ r).
  { destruct Htail as [?|[rest ->]]; [by left | right; by eexists]. }
  pose proof (lstrip_fixed body Hbody Hl) as Hfirst.
  unfold extract_section.
  replace ("## " ++ h ++ ws1 ++ NL ++ body ++ ws2 ++ tail)
    with (("## " ++ h) ++ ws1 ++ NL ++ body ++ ws2 ++ tail)
    by apply string_app_assoc.
  rewrite (search_skip _ _ Hhead pre true Hpre Hline).
  replace (if String.eqb pre "" then true else true) with true
    by (by destruct (String.eqb pre "")).
  rewrite search_unfold, startswith_self, drop_length_app. cbn [andb].
  rewrite (after_blank_run ws1 body (ws2 ++ tail) None Hws1 Hfirst).
  replace (body ++ ws2 ++ tail) with ((body ++ ws2) ++ tail)
    by apply string_app_assoc.
  rewrite capture_app.
  - assert (capture tail = "") as ->.
    { destruct Htail as [->|[rest ->]]; [done|].
      replace (NL ++ "## " ++ rest) with ((NL ++ "## ") ++ rest)
        by apply string_app_assoc.
      by rewrite capture_unfold, startswith_self. }
    assert (Hnil : ∀ s : string, s ++ "" = s).
    { intros s. induction s as [|c s IH]; [done|].
      change (String c (s ++ "") = String c s). by rewrite IH. }
    rewrite Hnil. unfold strip.
    destruct Hfirst as (c & b & -> & Hc).
    change (String c b ++ ws2) with (String c (b ++ ws2)).
    cbn [lstrip]. rewrite Hc.
    change (String c (b ++ ws2)) with (String c b ++ ws2).
    by rewrite rstrip_app_blank.
  - apply no_header_app.
    + apply no_header_body; [done | by apply starts_blank_app].
    + by apply no_header_blank.
Qed.

End ExtractionRoundTrip.

Section ExtractionResult.

Import Render.

Lemma extract_section_roundtrip_witness :
  extract_section
    (("# RAG" ++ NL ++ NL) ++ "## " ++ "Summary" ++ "" ++ NL ++ "Retrieve."
       ++ NL ++ (NL ++ "## " ++ "Key Points" ++ NL ++ "- index")) "Summary"
  = "Retrieve.".
Proof.
  apply (extract_section_roundtrip ("# RAG" ++ NL ++ NL) "Summary" "" "Retrieve." NL
           (NL ++ "## " ++ "Key Points" ++ NL ++ "- index")).
  - unfold ascii_text. vm_compute. repeat constructor.
  - intros H. repeat (apply elem_of_cons in H as [H|H]; [discriminate|]).
    by apply elem_of_nil in H.
  - vm_compute. reflexivity.
  - right. by exists ("# RAG" ++ NL).
  - reflexivity.
  - reflexivity.
  - discriminate.
  - reflexivity.
  - reflexivity.
  - vm_compute. reflexivity.
  - right. by eexists.
Defined.




Lemma lstrip_suffix (s : string) : ∃ pre, s = pre ++ lstrip s.
Proof.
  induction s as [|c s IH]; [by exists ""|].
  simpl. destruct (is_space c); [|by exists ""].
  destruct IH as [pre Hpre]. exists (String c pre).
  change (String c s = String c (pre ++ lstrip s)). by rewrite <- Hpre.
Qed.

Lemma rstrip_prefix (s : string) : ∃ post, s = rstrip s ++ post.
Proof.
  induction s as [|c s IH]; [by exists ""|].
  rewrite rstrip_unfold. destruct IH as [post Hpost].
  destruct (rstrip s) as [|r0 r] eqn:Er.
  - destruct (is_space c).
    + by exists (String c s).
    + exists s. reflexivity.
  - exists post. change (String c s = String c (String r0 r ++ post)).
    by rewrite <- Hpost.
Qed.







End ExtractionResult.

(** ** Wikilinks *)

Section Wikilinks.

Import Distill.

Lemma span_link_chars (s r rest : string) :
  span_link s = (r, rest) → (("]"%char) ∉ chars r) ∧ s = r ++ rest.
Proof.
  revert r rest. induction s as [|c s IH]; intros r rest H; simpl in H.
  - injection H as <- <-. split; [apply not_elem_of_nil | done].
  - destruct (Ascii.eqb c "]") eqn:E.
    + injection H as <- <-. split; [apply not_elem_of_nil | done].
    + destruct (span_link s) as [r' rest'] eqn:Es. injection H as <- <-.
      destruct (IH r' rest' eq_refl) as [Hn ->]. split; [|done].
      apply Ascii.eqb_neq in E. simpl. intros Hin.
      apply elem_of_cons in Hin as [Hin|Hin]; [congruence | done].
Qed.

Lemma link_at_name (s r : string) (n : nat) :
  link_at s = Some (r, n) → link_name r.
Proof.
  unfold link_at. destruct s as [|a [|b body]]; try discriminate.
  destruct (Ascii.eqb a "[" && Ascii.eqb b "["); [|discriminate].
  destruct (span_link body) as [r' rest] eqn:Es.
  destruct r' as [|c r']; [discriminate|].
  destruct (PyStr.startswith "]]" rest); [|discriminate].
  intros [= <- <-]. apply span_link_chars in Es as [Hn _]. split; [done | done].
Qed.

Lemma findall_links_names (s : string) (skip : nat) (l : string) :
  l ∈ findall_links s skip → link_name l.
Proof.
  revert skip. induction s as [|c s IH]; intros skip H.
  - by apply elem_of_nil in H.
  - cbn [findall_links] in H. destruct skip as [|k]; [|by apply (IH k)].
    destruct (link_at (String c s)) as [[r n]|] eqn:El; [|by apply (IH O)].
    apply elem_of_cons in H as [->|H]; [exact (link_at_name _ _ n El) | exact (IH _ H)].
Qed.

Lemma findall_links_none (s : string) (skip : nat) :
  ("["%char) ∉ chars s → findall_links s skip = [].
Proof.
  revert skip. induction s as [|c s IH]; intros skip H; [done|].
  assert (Hc : c ≠ "["%char) by (intros ->; apply H; left).
  assert (Hs : ("["%char) ∉ chars s) by (intros Hin; apply H; by right).
  cbn [findall_links]. destruct skip as [|k]; [|by apply IH].
  assert (link_at (String c s) = None) as ->.
  { unfold link_at. destruct s as [|b body]; [done|].
    apply Ascii.eqb_neq in Hc. by rewrite Hc. }
  by apply IH.
Qed.

(** X26: every wikilink found is a non-empty name without a closing
    bracket, and a text without an opening bracket holds no wikilink. *)
Theorem extract_wikilinks_names (text : string) :
  (∀ l, l ∈ extract_wikilinks text → l ≠ "" ∧ (("]"%char) ∉ chars l))
  ∧ (("["%char) ∉ chars text → extract_wikilinks text = []).
Proof.
  split.
  - intros l Hl. by apply (findall_links_names text O).
  - apply findall_links_none.
Qed.

Lemma span_link_app (l X : string) :
  ("]"%char) ∉ chars l → span_link (l ++ String "]" X) = (l, String "]" X).
Proof.
  induction l as [|c l IH]; intros H; [reflexivity|].
  change (String c l ++ String "]" X) with (String c (l ++ String "]" X)).
  cbn [span_link].
  assert (Hc : Ascii.eqb c "]" = false).
  { apply Ascii.eqb_neq. intros ->. apply H. left. }
  rewrite Hc, IH; [done|]. intros Hin. apply H. by right.
Qed.

Lemma findall_skip_app (a rest : string) :
  findall_links (a ++ rest) (String.length a) = findall_links rest 0.
Proof.
  induction a as [|c a IH]; [done|].
  change (String c a ++ rest) with (String c (a ++ rest)). exact IH.
Qed.

Lemma findall_plain_app (a rest : string) :
  ("["%char) ∉ chars a → findall_links (a ++ rest) 0 = findall_links rest 0.
Proof.
  induction a as [|c a IH]; intros H; [done|].
  change (String c a ++ rest) with (String c (a ++ rest)).
  cbn [findall_links].
  assert (Hc : Ascii.eqb c "[" = false).
  { apply Ascii.eqb_neq. intros ->. apply H. left. }
  assert (link_at (String c (a ++ rest)) = None) as ->.
  { unfold link_at. destruct (a ++ rest); [done|]. by rewrite Hc. }
  apply IH. intros Hin. apply H. by right.
Qed.

Lemma findall_unfold (c : ascii) (s : string) :
  findall_links (String c s) 0
  = match link_at (String c s) with
    | Some (r, n) => r :: findall_links s (n - 1)
    | None => findall_links s 0
    end.
Proof. reflexivity. Qed.

Lemma findall_one_link (l rest : string) :
  link_name l →
  findall_links ("[[" ++ l ++ "]]" ++ rest) 0 = l :: findall_links rest 0.
Proof.
  intros [Hne Hb].
  change ("[[" ++ l ++ "]]" ++ rest)
    with (String "[" (String "[" (l ++ String "]" (String "]" rest)))).
  rewrite findall_unfold.
  assert (link_at (String "[" (String "[" (l ++ String "]" (String "]" rest))))
          = Some (l, (String.length l + 4)%nat)) as ->.
  { unfold link_at. cbn [Ascii.eqb Bool.eqb andb]. rewrite (span_link_app l _ Hb).
    destruct l as [|c l]; [done|]. reflexivity. }
  f_equal.
  replace (String.length l + 4 - 1)%nat
    with (String.length (String "[" (l ++ "]]")))
    by (cbn [String.length]; rewrite length_app; cbn [String.length]; lia).
  replace (String "[" (l ++ String "]" (String "]" rest)))
    with (String "[" (l ++ "]]") ++ rest).
  - apply findall_skip_app.
  - change (String "[" ((l ++ "]]") ++ rest) = String "[" (l ++ "]]" ++ rest)).
    by rewrite string_app_assoc.
Qed.

Lemma string_app_nil (s : string) : s ++ "" = s.
Proof.
  induction s as [|c s IH]; [done|].
  change (String c (s ++ "") = String c s). by rewrite IH.
Qed.

Lemma link_lines_cons (l : string) (ls : list string) :
  link_lines (l :: ls)
  = "- " ++ "[[" ++ l ++ "]]"
      ++ match ls with
         | [] => ""
         | _ :: _ => NL ++ link_lines ls
         end.
Proof.
  unfold link_lines. destruct ls as [|l' ls]; cbn [map PyStr.join].
  - rewrite string_app_nil. reflexivity.
  - rewrite !string_app_assoc. reflexivity.
Qed.

(** X27: the link lines [create_distill_log] writes are read back by
    [extract_wikilinks]: a text made of the lines [- [[name]]], one per
    link, between two stretches of text without an opening bracket, yields
    exactly the list of names, in order, when every name is non-empty and
    holds no closing bracket. *)
Theorem extract_wikilinks_roundtrip (pre post : string) (links : list string)
    (Hnames : Forall link_name links)
    (Hpre : ("["%char) ∉ chars pre) (Hpost : ("["%char) ∉ chars post) :
  extract_wikilinks (pre ++ link_lines links ++ post) = links.
Proof.
  unfold extract_wikilinks. revert pre Hpre.
  induction Hnames as [|l ls Hl Hls IH]; intros pre Hpre.
  - rewrite findall_plain_app by done.
    change (link_lines [] ++ post) with post. by apply findall_links_none.
  - rewrite link_lines_cons, !string_app_assoc.
    rewrite findall_plain_app by done.
    rewrite (findall_plain_app "- ").
    + rewrite findall_one_link by done. f_equal.
      destruct ls as [|l' ls'].
      * change ("" ++ post) with post. by apply findall_links_none.
      * rewrite string_app_assoc. apply IH.
        intros H. apply list_elem_of_singleton in H. discriminate.
    + intros H. repeat (apply elem_of_cons in H as [H|H]; [discriminate|]).
      by apply elem_of_nil in H.
Qed.

Lemma extract_wikilinks_roundtrip_witness :
  extract_wikilinks (("## Links" ++ NL ++ NL)
                     ++ link_lines ["topic.alignment"; "project.qraft"] ++ NL)
  = ["topic.alignment"; "project.qraft"].
Proof.
  apply extract_wikilinks_roundtrip.
  - repeat constructor; try discriminate;
      intros H; repeat (apply elem_of_cons in H as [H|H]; [discriminate|]);
      by apply elem_of_nil in H.
  - intros H. repeat (apply elem_of_cons in H as [H|H]; [discriminate|]).
    by apply elem_of_nil in H.
  - intros H. repeat (apply elem_of_cons in H as [H|H]; [discriminate|]).
    by apply elem_of_nil in H.
Defined.

End Wikilinks.

(** ** Slugs *)

Section Slugs.

Import Slug.

Lemma filter_keep_chars (s : string) (c : ascii) :
  c ∈ chars (filter_keep s) → keep c = true.
Proof.
  induction s as [|a s IH]; simpl; intros H; [by apply elem_of_nil in H|].
  destruct (keep a) eqn:Ea; [|by apply IH].
  simpl in H. apply elem_of_cons in H as [->|H]; [done | by apply IH].
Qed.

Lemma strip_chars (s : string) (c : ascii) :
  c ∈ chars (Render.strip s) → c ∈ chars s.
Proof.
  unfold Render.strip. intros H.
  destruct (rstrip_prefix (Render.lstrip s)) as [post Hpost].
  destruct (lstrip_suffix s) as [pre Hpre].
  rewrite Hpre, chars_app. apply elem_of_app. right.
  rewrite Hpost, chars_app. apply elem_of_app. by left.
Qed.

Lemma collapse_chars (s : string) (b : bool) (c : ascii) :
  c ∈ chars (collapse s b) →
  c = "_"%char ∨ (c ∈ chars s ∧ Render.is_space c = false).
Proof.
  revert b. induction s as [|a s IH]; intros b H; [by apply elem_of_nil in H|].
  cbn [collapse] in H. destruct (Render.is_space a) eqn:Ea.
  - destruct b.
    + destruct (IH _ H) as [?|[? ?]]; [by left | right; split; [by right | done]].
    + simpl in H. apply elem_of_cons in H as [->|H]; [by left|].
      destruct (IH _ H) as [?|[? ?]]; [by left | right; split; [by right | done]].
  - simpl in H. apply elem_of_cons in H as [->|H]; [right; split; [left | done]|].
    destruct (IH _ H) as [?|[? ?]]; [by left | right; split; [by right | done]].
Qed.

Lemma lower_slug_char (c : ascii) :
  (is_word c || Ascii.eqb c "-") = true → slug_char (PyStr.lower_ascii c) = true.
Proof. destruct c as [[] [] [] [] [] [] [] []]; vm_compute; done. Qed.

Lemma keep_not_space (c : ascii) :
  keep c = true → Render.is_space c = false →
  (is_word c || Ascii.eqb c "-") = true.
Proof.
  unfold keep. intros H Hs. rewrite Hs, orb_false_r in H. exact H.
Qed.

Lemma slugify_chars (text : string) (c : ascii) :
  c ∈ chars (slugify text) → slug_char c = true.
Proof.
  unfold slugify. intros H.
  assert (Hl : ∀ s, c ∈ chars (PyStr.lower s) →
                    ∃ a, a ∈ chars s ∧ c = PyStr.lower_ascii a).
  { induction s as [|a s IH]; simpl; intros Hc; [by apply elem_of_nil in Hc|].
    apply elem_of_cons in Hc as [->|Hc]; [exists a; split; [left | done]|].
    destruct (IH Hc) as (a' & ? & ?). exists a'. split; [by right | done]. }
  destruct (Hl _ H) as (a & Ha & ->). apply lower_slug_char.
  apply collapse_chars in Ha as [->|[Ha Hs]]; [reflexivity|].
  apply keep_not_space; [|done].
  by apply (filter_keep_chars text), strip_chars.
Qed.

Lemma slug_char_facts (c : ascii) :
  slug_char c = true →
  keep c = true ∧ Render.is_space c = false ∧ PyStr.lower_ascii c = c.
Proof. destruct c as [[] [] [] [] [] [] [] []]; vm_compute; try done. Qed.

Lemma slug_fixed (r : string) :
  (∀ c, c ∈ chars r → slug_char c = true) →
  filter_keep r = r ∧ Render.lstrip r = r ∧ Render.rstrip r = r
  ∧ (∀ b, collapse r b = r) ∧ PyStr.lower r = r.
Proof.
  induction r as [|a r IH]; intros H; [done|].
  destruct (slug_char_facts a (H a ltac:(left))) as (Hk & Hs & Hlow).
  destruct IH as (I1 & I2 & I3 & I4 & I5); [intros c Hc; apply H; by right|].
  split; [simpl; by rewrite Hk, I1|].
  split; [simpl; by rewrite Hs|].
  split; [rewrite rstrip_unfold, I3; destruct r; [by rewrite Hs | done]|].
  split; [intros b; cbn [collapse]; by rewrite Hs, I4|].
  simpl. by rewrite Hlow, I5.
Qed.

(** X28: for an ASCII text, the slug holds only lowercase letters, digits,
    underscores and hyphens (no white space, no capital letter), and taking
    the slug of a slug changes nothing. *)
Theorem slugify_idempotent (text : string) (Hascii : ascii_text text) :
  (∀ c, c ∈ chars (slugify text) → slug_char c = true)
  ∧ slugify (slugify text) = slugify text.
Proof.
  split; [apply slugify_chars|].
  destruct (slug_fixed (slugify text) (slugify_chars text))
    as (H1 & H2 & H3 & H4 & H5).
  unfold slugify at 1. unfold Render.strip. by rewrite H1, H2, H3, H4, H5.
Qed.

Lemma slugify_idempotent_witness :
  slugify (slugify "Use PostgreSQL  for (the) database!")
  = slugify "Use PostgreSQL  for (the) database!".
Proof.
  refine (proj2 (slugify_idempotent "Use PostgreSQL  for (the) database!" _)).
  unfold ascii_text. repeat constructor.
Defined.

End Slugs.

(** ** Query terms *)

Section QueryTerms.

Import Terms.

Lemma flush_elem (cur t : string) : t ∈ flush cur → t = cur ∧ cur ≠ "".
Proof.
  destruct cur as [|c cur]; simpl; intros H; [by apply elem_of_nil in H|].
  apply list_elem_of_singleton in H. done.
Qed.

Lemma token_runs_word (s cur t : string) :
  (∀ c, c ∈ chars cur → is_word c = true) →
  t ∈ token_runs s cur → ∀ c, c ∈ chars t → is_word c = true.
Proof.
  revert cur. induction s as [|a s IH]; intros cur Hcur Ht.
  - apply flush_elem in Ht as [-> _]. done.
  - cbn [token_runs] in Ht. destruct (is_word a) eqn:Ea.
    + apply (IH (cur ++ String a "")); [|done].
      intros c Hc. rewrite chars_app in Hc. apply elem_of_app in Hc as [Hc|Hc]; [eauto|].
      apply list_elem_of_singleton in Hc as ->. done.
    + apply elem_of_app in Ht as [Ht|Ht].
      * apply flush_elem in Ht as [-> _]. done.
      * apply (IH ""); [|done]. intros c Hc. by apply elem_of_nil in Hc.
Qed.

Lemma lower_length (s : string) : String.length (PyStr.lower s) = String.length s.
Proof. induction s as [|c s IH]; simpl; [done | by rewrite IH]. Qed.

Lemma lower_chars (s : string) : chars (PyStr.lower s) = map PyStr.lower_ascii (chars s).
Proof. induction s as [|c s IH]; simpl; [done | by rewrite IH]. Qed.

Lemma lower_word (c : ascii) :
  is_word (PyStr.lower_ascii c) = is_word c
  ∧ PyStr.lower_ascii (PyStr.lower_ascii c) = PyStr.lower_ascii c.
Proof. destruct c as [[] [] [] [] [] [] [] []]; vm_compute; done. Qed.

Lemma lower_idem (s : string) : PyStr.lower (PyStr.lower s) = PyStr.lower s.
Proof.
  induction s as [|c s IH]; simpl; [done|].
  by rewrite (proj2 (lower_word c)), IH.
Qed.

Lemma flush_lower (cur : string) :
  flush (PyStr.lower cur) = map PyStr.lower (flush cur).
Proof. by destruct cur. Qed.

Lemma token_runs_lower (s cur : string) :
  token_runs (PyStr.lower s) (PyStr.lower cur) = map PyStr.lower (token_runs s cur).
Proof.
  revert cur. induction s as [|a s IH]; intros cur.
  - apply flush_lower.
  - cbn [PyStr.lower token_runs]. rewrite (proj1 (lower_word a)).
    destruct (is_word a).
    + rewrite <- IH, lower_app. reflexivity.
    + rewrite map_app, <- flush_lower. f_equal. apply (IH "").
Qed.

Lemma filter_map_lower (l : list string) :
  List.filter (fun t => (2 <=? String.length t)%nat) (map PyStr.lower l)
  = map PyStr.lower (List.filter (fun t => (2 <=? String.length t)%nat) l).
Proof.
  induction l as [|t l IH]; [done|].
  cbn [map List.filter]. rewrite lower_length, IH.
  by destruct (2 <=? String.length t)%nat.
Qed.

(** X29: for an ASCII question, every query term has at least two
    characters, all of them lowercase letters, digits or underscores (so no
    term is lost to the case-sensitive comparison of the scorer), and the
    case of the question does not matter. *)
Theorem query_terms_shape (question : string) (Hascii : ascii_text question) :
  (∀ t, t ∈ query_terms question →
        (2 ≤ String.length t)%nat
        ∧ ∀ c, c ∈ chars t → is_word c = true ∧ is_upper c = false)
  ∧ query_terms (PyStr.lower question) = query_terms question.
Proof.
  split.
  - intros t Ht. unfold query_terms in Ht.
    apply list_elem_of_fmap in Ht as (r & -> & Hr).
    apply list_elem_of_In, filter_In in Hr as [Hr Hlen].
    apply list_elem_of_In in Hr. apply Nat.leb_le in Hlen.
    split; [by rewrite lower_length|].
    intros c Hc. split; [|by apply (lower_no_upper r)].
    rewrite lower_chars in Hc. apply list_elem_of_fmap in Hc as (a & -> & Ha).
    rewrite (proj1 (lower_word a)).
    apply (token_runs_word question "" r); [|done|done].
    intros x Hx. by apply elem_of_nil in Hx.
  - unfold query_terms.
    change (token_runs (PyStr.lower question) "")
      with (token_runs (PyStr.lower question) (PyStr.lower "")).
    rewrite token_runs_lower, filter_map_lower, <- list_fmap_compose.
    apply list_fmap_ext. intros _ t _. apply lower_idem.
Qed.

Lemma query_terms_shape_witness :
  query_terms (PyStr.lower "RAG system: how 2 design a KG_schema?")
  = query_terms "RAG system: how 2 design a KG_schema?".
Proof.
  refine (proj2 (query_terms_shape "RAG system: how 2 design a KG_schema?" _)).
  unfold ascii_text. repeat constructor.
Defined.

End QueryTerms.

(** ** String dates in the recency window *)

Section StringDates.

Import PyDate.

Lemma strptime_of_strftime (y m d : Z) :
  valid_date y m d = true → 1000 ≤ y →
  strptime (strftime_ymd y m d) = Ok (midnight y m d).
Proof.
  intros Hv Hy. pose proof Hv as Hv'. unfold valid_date, MINYEAR, MAXYEAR in Hv'.
  repeat (apply andb_true_iff in Hv' as [Hv' ?]).
  repeat match goal with H : (_ <=? _) = true |- _ => apply Z.leb_le in H end.
  pose proof (days_in_month_le y m).
  unfold strptime, match_ymd, strftime_ymd.
  rewrite re_year_four_digits by lia.
  rewrite match_month_day by lia. by rewrite Hv.
Qed.

(** X30: a note dated with a string [YYYY-MM-DD] counts from the midnight
    that starts that day: it is in the recency set exactly when the cutoff
    [now - days] is not after that midnight, whatever the time of day the
    note was written at. *)
Theorem get_recent_notes_string_date (now days c y m d : Z) (n : note) (i : string)
    (Hc : cutoff now days = Ok c)
    (Hv : valid_date y m d = true) (Hy : 1000 ≤ y)
    (Hu : note_updated n = VStr (strftime_ymd y m d))
    (Hid : note_id n = Some i) (Hne : i ≠ "") :
  get_recent_notes now [n] days
  = Ok (if c <=? midnight y m d then {[i]} else ∅).
Proof.
  unfold get_recent_notes. rewrite Hc. cbn [bind]. f_equal.
  apply set_eq. intros x. rewrite recent_loop_elem.
  assert (Hr : resolved (note_updated n) = Some (midnight y m d)).
  { rewrite Hu. unfold resolved. by rewrite strptime_of_strftime. }
  destruct (c <=? midnight y m d) eqn:E.
  - apply Z.leb_le in E. rewrite elem_of_singleton. split.
    + intros (n' & us & Hn' & _ & _ & Hid' & _).
      apply list_elem_of_singleton in Hn' as ->. congruence.
    + intros ->. exists n, (midnight y m d).
      split; [by apply list_elem_of_singleton | done].
  - apply Z.leb_gt in E. split; [|intros H; by apply not_elem_of_empty in H].
    intros (n' & us & Hn' & Hr' & Hle & _).
    apply list_elem_of_singleton in Hn' as ->.
    rewrite Hr in Hr'. injection Hr' as <-. lia.
Qed.

Lemma get_recent_notes_string_date_witness :
  get_recent_notes noon_2026_11_04
    [mk_note (Some "b") "B" [] (VStr (strftime_ymd 2026 10 5))] 30
  = Ok (if noon_2026_11_04 - 30 * DAY_US <=? midnight 2026 10 5
        then {["b"]} else ∅).
Proof.
  apply (get_recent_notes_string_date noon_2026_11_04 30
           (noon_2026_11_04 - 30 * DAY_US) 2026 10 5).
  - vm_compute. reflexivity.
  - vm_compute. reflexivity.
  - lia.
  - reflexivity.
  - reflexivity.
  - discriminate.
Defined.

End StringDates.
